(** * The OR-Tools wrapper ([ortools-sys/wrapper.h], [ortools-sys/wrapper.cc])

    A shallow embedding of the flat C interface over the two solving
    engines: the CP-SAT model builder with its response object, and the
    linear solver.  The engines themselves (search, simplex) are opaque:
    they appear as section variables.  What is embedded is the wrapper's
    own code: the handle tables, the assembly of linear expressions, the
    status normalizers, the time-limit gate, the backend selector and the
    handling of null names. *)

From stdpp Require Import base numbers option list strings gmap fin_maps.
From Stdlib Require Import ZArith Lia SpecFloat.

Local Open Scope Z_scope.

(** ** Machine integers and doubles *)

(** Two's complement reading of an integer in [w] bits: what a narrowing
    [static_cast] to a signed [w]-bit type yields. *)
Definition wrap_signed (w : Z) (z : Z) : Z :=
  (z + 2 ^ (w - 1)) mod 2 ^ w - 2 ^ (w - 1).

Definition int32_range (z : Z) : Prop := - 2 ^ 31 <= z < 2 ^ 31.
Definition int64_range (z : Z) : Prop := - 2 ^ 63 <= z < 2 ^ 63.

(** [static_cast<int32_t>(v.size())] : the argument is a [size_t]. *)
Definition static_cast_int32 (size : nat) : Z := wrap_signed 32 (Z.of_nat size).

(** Conversion of a signed index to [size_t], as [operator[]] of
    [std::vector] does with an [int32_t] argument. *)
Definition to_size_t (idx : Z) : nat := Z.to_nat (idx mod 2 ^ 64).

(** [v[idx]] : reading outside the vector is undefined, here [None]. *)
Definition vec_at {A} (v : list A) (idx : Z) : option A := v !! to_size_t idx.

(** A [double] is an IEEE 754 binary64 value. *)
Abbreviation double := spec_float.

Definition double_prec : Z := 53.
Definition double_emax : Z := 1024.

Definition double_zero : double := S754_zero false.
Definition double_one : double := S754_finite false (2 ^ 52) (-52).

(** [x > 0] on doubles. *)
Definition double_gt_zero (x : double) : bool := SFltb double_zero x.

(** A [const char*] argument: [None] is the null pointer. *)
Abbreviation c_str := (option string).

(** Reading a C string through its pointer, as the conversion to
    [std::string] does; through a null pointer it is undefined. *)
Definition read_c_str (p : c_str) : option string := p.

(** ** Common types ([wrapper.h]) *)

Inductive OrtoolsStatus :=
  | ORTOOLS_STATUS_UNKNOWN
  | ORTOOLS_STATUS_OPTIMAL
  | ORTOOLS_STATUS_FEASIBLE
  | ORTOOLS_STATUS_INFEASIBLE
  | ORTOOLS_STATUS_UNBOUNDED
  | ORTOOLS_STATUS_MODEL_INVALID
  | ORTOOLS_STATUS_ERROR.

#[global] Instance OrtoolsStatus_eq_dec : EqDecision OrtoolsStatus.
Proof. solve_decision. Defined.

Definition OrtoolsStatus_code (s : OrtoolsStatus) : Z :=
  match s with
  | ORTOOLS_STATUS_UNKNOWN => 0
  | ORTOOLS_STATUS_OPTIMAL => 1
  | ORTOOLS_STATUS_FEASIBLE => 2
  | ORTOOLS_STATUS_INFEASIBLE => 3
  | ORTOOLS_STATUS_UNBOUNDED => 4
  | ORTOOLS_STATUS_MODEL_INVALID => 5
  | ORTOOLS_STATUS_ERROR => 6
  end.

(** ** Status normalizers

    The native status enumerations belong to the engines; a native status
    is its integer code, and the four case labels of each [switch] are
    parameters.  The labels of one [switch] are pairwise distinct (a
    duplicate label does not compile), so the order of the tests below is
    immaterial. *)

Section StatusNormalizer.

Variables CP_OPTIMAL CP_FEASIBLE CP_INFEASIBLE CP_MODEL_INVALID : Z.
Variables LP_OPTIMAL LP_FEASIBLE LP_INFEASIBLE LP_UNBOUNDED : Z.

Definition convert_cp_status (status : Z) : OrtoolsStatus :=
  if status =? CP_OPTIMAL then ORTOOLS_STATUS_OPTIMAL
  else if status =? CP_FEASIBLE then ORTOOLS_STATUS_FEASIBLE
  else if status =? CP_INFEASIBLE then ORTOOLS_STATUS_INFEASIBLE
  else if status =? CP_MODEL_INVALID then ORTOOLS_STATUS_MODEL_INVALID
  else ORTOOLS_STATUS_UNKNOWN.

Definition convert_lp_status (status : Z) : OrtoolsStatus :=
  if status =? LP_OPTIMAL then ORTOOLS_STATUS_OPTIMAL
  else if status =? LP_FEASIBLE then ORTOOLS_STATUS_FEASIBLE
  else if status =? LP_INFEASIBLE then ORTOOLS_STATUS_INFEASIBLE
  else if status =? LP_UNBOUNDED then ORTOOLS_STATUS_UNBOUNDED
  else ORTOOLS_STATUS_ERROR.

End StatusNormalizer.

(** The codes the engines' public headers give to the labels, used to run
    the normalizers on concrete inputs. *)
Module NativeCodes.
Definition CP_UNKNOWN : Z := 0.
Definition CP_MODEL_INVALID : Z := 1.
Definition CP_FEASIBLE : Z := 2.
Definition CP_INFEASIBLE : Z := 3.
Definition CP_OPTIMAL : Z := 4.
Definition LP_OPTIMAL : Z := 0.
Definition LP_FEASIBLE : Z := 1.
Definition LP_INFEASIBLE : Z := 2.
Definition LP_UNBOUNDED : Z := 3.
Definition LP_ABNORMAL : Z := 4.
Definition LP_NOT_SOLVED : Z := 6.
Definition cp_status : Z -> OrtoolsStatus :=
  convert_cp_status CP_OPTIMAL CP_FEASIBLE CP_INFEASIBLE CP_MODEL_INVALID.
Definition lp_status : Z -> OrtoolsStatus :=
  convert_lp_status LP_OPTIMAL LP_FEASIBLE LP_INFEASIBLE LP_UNBOUNDED.
End NativeCodes.

(** ** The CP-SAT builder interface the wrapper drives

    [sat::CpModelBuilder], [sat::IntVar] and [sat::LinearExpr] belong to
    the engine; only the part of their interface that the wrapper calls is
    described. *)

(** Modelled from the spec: the engine's variable domain, "the closed
    integer interval [lb, ub]". *)
Record Domain := { domain_lb : Z; domain_ub : Z }.

(** Modelled from the spec: a variable of the compiled model, with its
    display name ("unnamed variables get no display name": the empty
    string) and its domain. *)
Record IntegerVariableProto :=
  { variable_name : string; variable_domain : Domain }.

(** Modelled from the spec: the engine's reference to one of its
    variables, the position of the variable in the model. *)
Record IntVar := { index : nat }.

#[global] Instance IntVar_eq_dec : EqDecision IntVar.
Proof. solve_decision. Defined.

(** Modelled from the spec: the engine's linear expression, "an ephemeral
    value" of variables with integer coefficients.  [operator+=] appends
    the terms of its argument and [operator*] scales every coefficient,
    in 64-bit arithmetic. *)
Record LinearExpr := { terms : list (IntVar * Z); constant : Z }.

Definition LinearExpr_empty : LinearExpr := {| terms := []; constant := 0 |}.

Definition LinearExpr_of_var (v : IntVar) : LinearExpr :=
  {| terms := [(v, 1)]; constant := 0 |}.

Definition LinearExpr_mul (e : LinearExpr) (factor : Z) : LinearExpr :=
  {| terms := map (fun t => (t.1, wrap_signed 64 (t.2 * factor))) (terms e);
     constant := wrap_signed 64 (constant e * factor) |}.

Definition LinearExpr_add_assign (e other : LinearExpr) : LinearExpr :=
  {| terms := terms e ++ terms other;
     constant := wrap_signed 64 (constant e + constant other) |}.

(** The value of an expression under an assignment of the variables. *)
Definition LinearExpr_eval (rho : IntVar -> Z) (e : LinearExpr) : Z :=
  constant e + foldr (fun t acc => t.2 * rho t.1 + acc) 0 (terms e).


Inductive LinearRelation := LessOrEqual | GreaterOrEqual | Equality.

Inductive ConstraintProto :=
  | LinearConstraint (e : LinearExpr) (rel : LinearRelation) (rhs : Z)
  | AllDifferentConstraint (vs : list IntVar).

Inductive ObjectiveDirection := Minimization | Maximization.

(** Modelled from the spec: the model "owns the ordered sequence of
    variable objects, the set of constraints, and the objective
    expression/direction"; "exactly one objective may be active; setting
    it again overwrites the prior one". *)
Record CpModelProto :=
  { proto_variables : list IntegerVariableProto;
    proto_constraints : list ConstraintProto;
    proto_objective : option (ObjectiveDirection * LinearExpr) }.

Module sat.

Definition empty : CpModelProto :=
  {| proto_variables := []; proto_constraints := []; proto_objective := None |}.

Definition NewIntVar (b : CpModelProto) (d : Domain) : CpModelProto * IntVar :=
  ({| proto_variables :=
        proto_variables b ++ [{| variable_name := EmptyString; variable_domain := d |}];
      proto_constraints := proto_constraints b;
      proto_objective := proto_objective b |},
   {| index := length (proto_variables b) |}).

(** A Boolean variable has the domain [0,1]; its conversion to [IntVar]
    keeps the position. *)
Definition NewBoolVar (b : CpModelProto) : CpModelProto * IntVar :=
  NewIntVar b {| domain_lb := 0; domain_ub := 1 |}.

Definition WithName (b : CpModelProto) (v : IntVar) (name : string) : CpModelProto :=
  {| proto_variables :=
       alter (fun p => {| variable_name := name; variable_domain := variable_domain p |})
             (index v) (proto_variables b);
     proto_constraints := proto_constraints b;
     proto_objective := proto_objective b |}.

Definition AddConstraint (b : CpModelProto) (c : ConstraintProto) : CpModelProto :=
  {| proto_variables := proto_variables b;
     proto_constraints := proto_constraints b ++ [c];
     proto_objective := proto_objective b |}.

Definition AddLessOrEqual b (e : LinearExpr) (rhs : Z) :=
  AddConstraint b (LinearConstraint e LessOrEqual rhs).
Definition AddGreaterOrEqual b (e : LinearExpr) (rhs : Z) :=
  AddConstraint b (LinearConstraint e GreaterOrEqual rhs).
Definition AddEquality b (e : LinearExpr) (rhs : Z) :=
  AddConstraint b (LinearConstraint e Equality rhs).
Definition AddAllDifferent b (vs : list IntVar) :=
  AddConstraint b (AllDifferentConstraint vs).

Definition SetObjective (b : CpModelProto) (d : ObjectiveDirection) (e : LinearExpr) :=
  {| proto_variables := proto_variables b;
     proto_constraints := proto_constraints b;
     proto_objective := Some (d, e) |}.

Definition Minimize b e := SetObjective b Minimization e.
Definition Maximize b e := SetObjective b Maximization e.

(** [Build] hands out the compiled model; the builder keeps its own. *)
Definition Build (b : CpModelProto) : CpModelProto := b.

End sat.

(** ** CP-SAT: the model builder ([wrapper.cc]) *)

Record CpModelBuilder :=
  { builder : CpModelProto;
    vars : list IntVar }.

Definition cpmodel_new : CpModelBuilder :=
  {| builder := sat.empty; vars := [] |}.

(** [name && name[0]] : the second operand is read only when [name] is
    not null. *)
Definition name_and_name0 (name : c_str) : option bool :=
  match name with
  | None => Some false
  | Some _ => s ← read_c_str name; Some (negb (String.eqb s EmptyString))
  end.

(** [if (name && name[0]) var.WithName(name);] *)
Definition with_optional_name (b : CpModelProto) (var : IntVar) (name : c_str)
  : option CpModelProto :=
  named ← name_and_name0 name;
  if (named : bool) then s ← read_c_str name; Some (sat.WithName b var s)
  else Some b.

Definition cpmodel_new_int_var (model : CpModelBuilder) (lb ub : Z) (name : c_str)
  : option (CpModelBuilder * Z) :=
  let '(b, var) := sat.NewIntVar (builder model) {| domain_lb := lb; domain_ub := ub |} in
  b' ← with_optional_name b var name;
  let idx := static_cast_int32 (length (vars model)) in
  Some ({| builder := b'; vars := vars model ++ [var] |}, idx).

Definition cpmodel_new_bool_var (model : CpModelBuilder) (name : c_str)
  : option (CpModelBuilder * Z) :=
  let '(b, bvar) := sat.NewBoolVar (builder model) in
  b' ← with_optional_name b bvar name;
  let idx := static_cast_int32 (length (vars model)) in
  Some ({| builder := b'; vars := vars model ++ [bvar] |}, idx).

(** The loop of [build_linear_expr], from index [i] with [remaining]
    iterations to go.  The two arrays are read at [i]; a read past the end
    of an array or of the variable table is undefined. *)
Fixpoint build_linear_expr_from (model : CpModelBuilder)
    (var_indices coeffs : list Z) (i : nat) (remaining : nat) (expr : LinearExpr)
  : option LinearExpr :=
  match remaining with
  | O => Some expr
  | S k =>
      idx ← var_indices !! i;
      c ← coeffs !! i;
      v ← vec_at (vars model) idx;
      build_linear_expr_from model var_indices coeffs (S i) k
        (LinearExpr_add_assign expr (LinearExpr_mul (LinearExpr_of_var v) c))
  end.

Definition build_linear_expr (model : CpModelBuilder)
    (var_indices coeffs : list Z) (num_vars : nat) : option LinearExpr :=
  build_linear_expr_from model var_indices coeffs 0 num_vars LinearExpr_empty.

Definition with_builder (model : CpModelBuilder) (b : CpModelProto) : CpModelBuilder :=
  {| builder := b; vars := vars model |}.

Definition cpmodel_add_linear_le model var_indices coeffs num_vars (rhs : Z)
  : option CpModelBuilder :=
  expr ← build_linear_expr model var_indices coeffs num_vars;
  Some (with_builder model (sat.AddLessOrEqual (builder model) expr rhs)).

Definition cpmodel_add_linear_ge model var_indices coeffs num_vars (rhs : Z)
  : option CpModelBuilder :=
  expr ← build_linear_expr model var_indices coeffs num_vars;
  Some (with_builder model (sat.AddGreaterOrEqual (builder model) expr rhs)).

Definition cpmodel_add_linear_eq model var_indices coeffs num_vars (rhs : Z)
  : option CpModelBuilder :=
  expr ← build_linear_expr model var_indices coeffs num_vars;
  Some (with_builder model (sat.AddEquality (builder model) expr rhs)).

(** The loop of [cpmodel_add_all_different]. *)
Fixpoint collect_vars_from (model : CpModelBuilder) (var_indices : list Z)
    (i : nat) (remaining : nat) (acc : list IntVar) : option (list IntVar) :=
  match remaining with
  | O => Some acc
  | S k =>
      idx ← var_indices !! i;
      v ← vec_at (vars model) idx;
      collect_vars_from model var_indices (S i) k (acc ++ [v])
  end.

Definition cpmodel_add_all_different model var_indices (num_vars : nat)
  : option CpModelBuilder :=
  vs ← collect_vars_from model var_indices 0 num_vars [];
  Some (with_builder model (sat.AddAllDifferent (builder model) vs)).

Definition cpmodel_minimize model var_indices coeffs num_vars
  : option CpModelBuilder :=
  expr ← build_linear_expr model var_indices coeffs num_vars;
  Some (with_builder model (sat.Minimize (builder model) expr)).

Definition cpmodel_maximize model var_indices coeffs num_vars
  : option CpModelBuilder :=
  expr ← build_linear_expr model var_indices coeffs num_vars;
  Some (with_builder model (sat.Maximize (builder model) expr)).

(** ** CP-SAT: solving and the response object *)

(** Modelled from the spec: the engine's parameters, of which the wrapper
    touches only the "optional wall-clock cutoff"; [None] is a cutoff
    that was never set, under which the engine searches without limit. *)
Record SatParameters := { max_time_in_seconds : option double }.

Definition SatParameters_default : SatParameters :=
  {| max_time_in_seconds := None |}.

Definition set_max_time_in_seconds (p : SatParameters) (t : double) : SatParameters :=
  {| max_time_in_seconds := Some t |}.

(** Modelled from the spec: what the engine reports for one solve, "solve
    status, objective value, wall-clock solve time" and the assignment.
    The status is the native code and the objective value a [double]. *)
Record sat_CpSolverResponse :=
  { status : Z;
    objective_value : double;
    solution : list Z;
    wall_time : double }.

Record CpSolverResponse :=
  { response : sat_CpSolverResponse;
    model : CpModelProto }.

(** The first lines of [cpmodel_solve]: the parameters of the solve. *)
Definition solve_parameters (time_limit_seconds : double) : SatParameters :=
  let params := SatParameters_default in
  if double_gt_zero time_limit_seconds
  then set_max_time_in_seconds params time_limit_seconds
  else params.

(** Truncation of a double toward zero; [None] for NaN and infinities. *)
Definition double_trunc (x : double) : option Z :=
  match x with
  | S754_zero _ => Some 0
  | S754_finite s m e =>
      let a := if 0 <=? e then Z.pos m * 2 ^ e else Z.pos m / 2 ^ (- e) in
      Some (if s then - a else a)
  | S754_infinity _ | S754_nan => None
  end.

(** [static_cast<int64_t>(x)] on a double: the truncated value, undefined
    when that value is not an [int64_t]. *)
Definition static_cast_int64 (x : double) : option Z :=
  z ← double_trunc x;
  if (- 2 ^ 63 <=? z) && (z <? 2 ^ 63) then Some z else None.

(** The objects the wrapper allocates with [new], by address. *)
Record Heap :=
  { heap_models : gmap positive CpModelBuilder;
    heap_responses : gmap positive CpSolverResponse }.

Definition heap_empty : Heap := {| heap_models := ∅; heap_responses := ∅ |}.

Definition cpmodel_new_at (h : Heap) : Heap * positive :=
  let l := fresh (dom (heap_models h)) in
  ({| heap_models := <[l := cpmodel_new]> (heap_models h);
      heap_responses := heap_responses h |}, l).



(** A call that works on the builder behind the pointer [l] only. *)
Definition on_model (h : Heap) (l : positive)
    (call : CpModelBuilder -> option CpModelBuilder) : option Heap :=
  m ← heap_models h !! l;
  m' ← call m;
  Some {| heap_models := <[l := m']> (heap_models h);
          heap_responses := heap_responses h |}.

Section Solve.

(** The search of the engine. *)
Variable SolveWithParameters : CpModelProto -> SatParameters -> sat_CpSolverResponse.

Definition cpmodel_solve (h : Heap) (l : positive) (time_limit_seconds : double)
  : option (Heap * positive) :=
  m ← heap_models h !! l;
  let params := solve_parameters time_limit_seconds in
  let result := fresh (dom (heap_responses h)) in
  let result_model := sat.Build (builder m) in
  let result_response := SolveWithParameters result_model params in
  Some ({| heap_models := heap_models h;
           heap_responses :=
             <[result := {| response := result_response; model := result_model |}]>
               (heap_responses h) |},
        result).

End Solve.

Section ResponseAccessors.

Variables CP_OPTIMAL CP_FEASIBLE CP_INFEASIBLE CP_MODEL_INVALID : Z.

Definition cpresponse_status (r : CpSolverResponse) : OrtoolsStatus :=
  convert_cp_status CP_OPTIMAL CP_FEASIBLE CP_INFEASIBLE CP_MODEL_INVALID
    (status (response r)).

End ResponseAccessors.

Definition cpresponse_objective_value (r : CpSolverResponse) : option Z :=
  static_cast_int64 (objective_value (response r)).

(** [response.solution(var_index)] : reading outside the assignment is
    undefined. *)
Definition cpresponse_value (r : CpSolverResponse) (var_index : Z) : option Z :=
  vec_at (solution (response r)) var_index.

Definition cpresponse_wall_time (r : CpSolverResponse) : double :=
  wall_time (response r).

(** The conversion of a 64-bit integer to the nearest double (ties to
    even), by which the engine stores an integer objective in the
    [double] field of its response. *)
Definition double_of_int64 (z : Z) : double :=
  binary_normalize double_prec double_emax z 0 false.

(** The value the reported assignment gives to a variable. *)
Definition solution_value (r : CpSolverResponse) (v : IntVar) : Z :=
  default 0 (solution (response r) !! index v).

(** The objective of the compiled model on the reported assignment: a
    weighted sum with integer coefficients over integer variables. *)
Definition true_objective (r : CpSolverResponse) : option Z :=
  match proto_objective (model r) with
  | Some (_, e) => Some (LinearExpr_eval (solution_value r) e)
  | None => None
  end.

(** The response [r] carries the integer objective [obj]: [obj] is the
    objective on the reported assignment, and the objective field holds
    the double nearest to it. *)
Definition reports_objective (r : CpSolverResponse) (obj : Z) : Prop :=
  true_objective r = Some obj
  /\ objective_value (response r) = double_of_int64 obj.

(** ** The linear solver interface the wrapper drives *)

Inductive OptimizationProblemType :=
  | GLOP_LINEAR_PROGRAMMING
  | CLP_LINEAR_PROGRAMMING
  | CBC_MIXED_INTEGER_PROGRAMMING
  | SCIP_MIXED_INTEGER_PROGRAMMING.

(** Modelled from the spec: a variable of the linear model, continuous or
    integer, with its bounds and its label. *)
Record MPVariable :=
  { mpvar_lb : double; mpvar_ub : double; mpvar_integer : bool; mpvar_name : string }.

(** Modelled from the spec: "a row with bound interval [lb, ub] and
    initially zero coefficients on all variables"; setting a coefficient
    overwrites it. *)
Record MPConstraint :=
  { row_lb : double; row_ub : double; row_name : string;
    row_coefficients : gmap nat double }.

(** Modelled from the spec: the state of the engine's solver object; the
    wrapper's pointers to variables and rows are positions in it. *)
Record MPSolver :=
  { mp_name : string;
    mp_problem_type : OptimizationProblemType;
    mp_variables : list MPVariable;
    mp_constraints : list MPConstraint;
    mp_objective : gmap nat double;
    mp_maximization : bool }.

Module MP.

Definition make (name : string) (problem_type : OptimizationProblemType) : MPSolver :=
  {| mp_name := name; mp_problem_type := problem_type;
     mp_variables := []; mp_constraints := [];
     mp_objective := ∅; mp_maximization := false |}.

Definition MakeVar (s : MPSolver) (lb ub : double) (integer : bool) (name : string)
  : MPSolver * nat :=
  ({| mp_name := mp_name s; mp_problem_type := mp_problem_type s;
      mp_variables := mp_variables s ++
        [{| mpvar_lb := lb; mpvar_ub := ub; mpvar_integer := integer; mpvar_name := name |}];
      mp_constraints := mp_constraints s;
      mp_objective := mp_objective s; mp_maximization := mp_maximization s |},
   length (mp_variables s)).

Definition MakeNumVar s lb ub name := MakeVar s lb ub false name.
Definition MakeIntVar s lb ub name := MakeVar s lb ub true name.
Definition MakeBoolVar s name := MakeVar s double_zero double_one true name.

Definition MakeRowConstraint (s : MPSolver) (lb ub : double) (name : string)
  : MPSolver * nat :=
  ({| mp_name := mp_name s; mp_problem_type := mp_problem_type s;
      mp_variables := mp_variables s;
      mp_constraints := mp_constraints s ++
        [{| row_lb := lb; row_ub := ub; row_name := name; row_coefficients := ∅ |}];
      mp_objective := mp_objective s; mp_maximization := mp_maximization s |},
   length (mp_constraints s)).

Definition SetCoefficient (s : MPSolver) (row var : nat) (coeff : double) : MPSolver :=
  {| mp_name := mp_name s; mp_problem_type := mp_problem_type s;
     mp_variables := mp_variables s;
     mp_constraints :=
       alter (fun r => {| row_lb := row_lb r; row_ub := row_ub r; row_name := row_name r;
                          row_coefficients := <[var := coeff]> (row_coefficients r) |})
             row (mp_constraints s);
     mp_objective := mp_objective s; mp_maximization := mp_maximization s |}.

Definition SetObjectiveCoefficient (s : MPSolver) (var : nat) (coeff : double) : MPSolver :=
  {| mp_name := mp_name s; mp_problem_type := mp_problem_type s;
     mp_variables := mp_variables s; mp_constraints := mp_constraints s;
     mp_objective := <[var := coeff]> (mp_objective s);
     mp_maximization := mp_maximization s |}.

Definition SetOptimizationDirection (s : MPSolver) (maximize : bool) : MPSolver :=
  {| mp_name := mp_name s; mp_problem_type := mp_problem_type s;
     mp_variables := mp_variables s; mp_constraints := mp_constraints s;
     mp_objective := mp_objective s; mp_maximization := maximize |}.

End MP.

(** ** Linear solver ([wrapper.h], [wrapper.cc]) *)

Definition ORTOOLS_LP_GLOP : Z := 0.
Definition ORTOOLS_LP_CLP : Z := 1.
Definition ORTOOLS_MIP_CBC : Z := 2.
Definition ORTOOLS_MIP_SCIP : Z := 3.

Record MpSolver :=
  { solver : MPSolver;
    variables : list nat;
    constraints : list nat }.

(** The [switch] of [mpsolver_new]; the selector crosses the interface as
    an integer. *)
Definition select_problem_type (solver_type : Z) : OptimizationProblemType :=
  if solver_type =? ORTOOLS_LP_GLOP then GLOP_LINEAR_PROGRAMMING
  else if solver_type =? ORTOOLS_LP_CLP then CLP_LINEAR_PROGRAMMING
  else if solver_type =? ORTOOLS_MIP_CBC then CBC_MIXED_INTEGER_PROGRAMMING
  else if solver_type =? ORTOOLS_MIP_SCIP then SCIP_MIXED_INTEGER_PROGRAMMING
  else GLOP_LINEAR_PROGRAMMING.

(** [name ? name : fallback], then read as a string by the callee. *)
Definition name_or (name : c_str) (fallback : string) : option string :=
  read_c_str (match name with Some _ => name | None => Some fallback end).

Definition mpsolver_new (name : c_str) (solver_type : Z) : option MpSolver :=
  let problem_type := select_problem_type solver_type in
  n ← name_or name "solver";
  Some {| solver := MP.make n problem_type; variables := []; constraints := [] |}.

Definition mpsolver_num_var (s : MpSolver) (lb ub : double) (name : c_str)
  : option (MpSolver * Z) :=
  n ← name_or name EmptyString;
  let '(e, var) := MP.MakeNumVar (solver s) lb ub n in
  let idx := static_cast_int32 (length (variables s)) in
  Some ({| solver := e; variables := variables s ++ [var];
           constraints := constraints s |}, idx).

Definition mpsolver_int_var (s : MpSolver) (lb ub : double) (name : c_str)
  : option (MpSolver * Z) :=
  n ← name_or name EmptyString;
  let '(e, var) := MP.MakeIntVar (solver s) lb ub n in
  let idx := static_cast_int32 (length (variables s)) in
  Some ({| solver := e; variables := variables s ++ [var];
           constraints := constraints s |}, idx).

Definition mpsolver_bool_var (s : MpSolver) (name : c_str) : option (MpSolver * Z) :=
  n ← name_or name EmptyString;
  let '(e, var) := MP.MakeBoolVar (solver s) n in
  let idx := static_cast_int32 (length (variables s)) in
  Some ({| solver := e; variables := variables s ++ [var];
           constraints := constraints s |}, idx).

Definition mpsolver_add_constraint (s : MpSolver) (lb ub : double) (name : c_str)
  : option (MpSolver * Z) :=
  n ← name_or name EmptyString;
  let '(e, constraint) := MP.MakeRowConstraint (solver s) lb ub n in
  let idx := static_cast_int32 (length (constraints s)) in
  Some ({| solver := e; variables := variables s;
           constraints := constraints s ++ [constraint] |}, idx).

Definition with_solver (s : MpSolver) (e : MPSolver) : MpSolver :=
  {| solver := e; variables := variables s; constraints := constraints s |}.

Definition mpsolver_set_constraint_coeff (s : MpSolver) (constraint_idx var_idx : Z)
    (coeff : double) : option MpSolver :=
  row ← vec_at (constraints s) constraint_idx;
  var ← vec_at (variables s) var_idx;
  Some (with_solver s (MP.SetCoefficient (solver s) row var coeff)).

Definition mpsolver_set_objective_coeff (s : MpSolver) (var_idx : Z) (coeff : double)
  : option MpSolver :=
  var ← vec_at (variables s) var_idx;
  Some (with_solver s (MP.SetObjectiveCoefficient (solver s) var coeff)).

Definition mpsolver_minimize (s : MpSolver) : MpSolver :=
  with_solver s (MP.SetOptimizationDirection (solver s) false).

Definition mpsolver_maximize (s : MpSolver) : MpSolver :=
  with_solver s (MP.SetOptimizationDirection (solver s) true).

Section LinearSolve.

Variables LP_OPTIMAL LP_FEASIBLE LP_INFEASIBLE LP_UNBOUNDED : Z.

(** The search of the engine: the solver after the solve and the native
    result status. *)
Variable MPSolver_Solve : MPSolver -> MPSolver * Z.

Definition mpsolver_solve (s : MpSolver) : MpSolver * OrtoolsStatus :=
  let '(e, native) := MPSolver_Solve (solver s) in
  (with_solver s e,
   convert_lp_status LP_OPTIMAL LP_FEASIBLE LP_INFEASIBLE LP_UNBOUNDED native).

End LinearSolve.

(** ** Sequences of calls on one model

    A client drives a model through a sequence of calls; the handles the
    creation calls return are collected in the order of the calls. *)

Inductive cp_call :=
  | CpNewIntVar (lb ub : Z) (name : c_str)
  | CpNewBoolVar (name : c_str)
  | CpAddLinearLe (var_indices coeffs : list Z) (num_vars : nat) (rhs : Z)
  | CpAddLinearGe (var_indices coeffs : list Z) (num_vars : nat) (rhs : Z)
  | CpAddLinearEq (var_indices coeffs : list Z) (num_vars : nat) (rhs : Z)
  | CpAddAllDifferent (var_indices : list Z) (num_vars : nat)
  | CpMinimize (var_indices coeffs : list Z) (num_vars : nat)
  | CpMaximize (var_indices coeffs : list Z) (num_vars : nat)
  | CpSolve (time_limit_seconds : double).

(** A call that works on the builder behind [l] and returns a handle. *)
Definition on_model_returning (h : Heap) (l : positive)
    (call : CpModelBuilder -> option (CpModelBuilder * Z)) : option (Heap * Z) :=
  m ← heap_models h !! l;
  r ← call m;
  Some ({| heap_models := <[l := r.1]> (heap_models h);
           heap_responses := heap_responses h |}, r.2).

Inductive mp_call :=
  | MpNumVar (lb ub : double) (name : c_str)
  | MpIntVar (lb ub : double) (name : c_str)
  | MpBoolVar (name : c_str)
  | MpAddConstraint (lb ub : double) (name : c_str)
  | MpSetConstraintCoeff (constraint_idx var_idx : Z) (coeff : double)
  | MpSetObjectiveCoeff (var_idx : Z) (coeff : double)
  | MpMinimize
  | MpMaximize
  | MpSolve.

(** What a call on the linear model returns to the client. *)
Inductive mp_returned :=
  | VariableHandle (idx : Z)
  | ConstraintHandle (idx : Z)
  | SolveStatus (st : OrtoolsStatus)
  | Nothing.

Definition variable_handles (rs : list mp_returned) : list Z :=
  omap (fun r => match r with VariableHandle i => Some i | _ => None end) rs.

Definition constraint_handles (rs : list mp_returned) : list Z :=
  omap (fun r => match r with ConstraintHandle i => Some i | _ => None end) rs.

Section Calls.

Variable SolveWithParameters : CpModelProto -> SatParameters -> sat_CpSolverResponse.
Variables LP_OPTIMAL LP_FEASIBLE LP_INFEASIBLE LP_UNBOUNDED : Z.
Variable MPSolver_Solve : MPSolver -> MPSolver * Z.

Definition cp_step (h : Heap) (l : positive) (c : cp_call) : option (Heap * option Z) :=
  match c with
  | CpNewIntVar lb ub name =>
      r ← on_model_returning h l (fun m => cpmodel_new_int_var m lb ub name);
      Some (r.1, Some r.2)
  | CpNewBoolVar name =>
      r ← on_model_returning h l (fun m => cpmodel_new_bool_var m name);
      Some (r.1, Some r.2)
  | CpAddLinearLe vi cs n rhs =>
      h' ← on_model h l (fun m => cpmodel_add_linear_le m vi cs n rhs); Some (h', None)
  | CpAddLinearGe vi cs n rhs =>
      h' ← on_model h l (fun m => cpmodel_add_linear_ge m vi cs n rhs); Some (h', None)
  | CpAddLinearEq vi cs n rhs =>
      h' ← on_model h l (fun m => cpmodel_add_linear_eq m vi cs n rhs); Some (h', None)
  | CpAddAllDifferent vi n =>
      h' ← on_model h l (fun m => cpmodel_add_all_different m vi n); Some (h', None)
  | CpMinimize vi cs n =>
      h' ← on_model h l (fun m => cpmodel_minimize m vi cs n); Some (h', None)
  | CpMaximize vi cs n =>
      h' ← on_model h l (fun m => cpmodel_maximize m vi cs n); Some (h', None)
  | CpSolve t =>
      r ← cpmodel_solve SolveWithParameters h l t; Some (r.1, None)
  end.

(** Runs the calls in order; the handles returned by the creation calls
    come out first to last. *)
Fixpoint cp_run (h : Heap) (l : positive) (calls : list cp_call)
  : option (Heap * list Z) :=
  match calls with
  | [] => Some (h, [])
  | c :: rest =>
      r ← cp_step h l c;
      r' ← cp_run r.1 l rest;
      Some (r'.1, match r.2 with Some idx => idx :: r'.2 | None => r'.2 end)
  end.

Definition mp_step (s : MpSolver) (c : mp_call) : option (MpSolver * mp_returned) :=
  match c with
  | MpNumVar lb ub name =>
      r ← mpsolver_num_var s lb ub name; Some (r.1, VariableHandle r.2)
  | MpIntVar lb ub name =>
      r ← mpsolver_int_var s lb ub name; Some (r.1, VariableHandle r.2)
  | MpBoolVar name =>
      r ← mpsolver_bool_var s name; Some (r.1, VariableHandle r.2)
  | MpAddConstraint lb ub name =>
      r ← mpsolver_add_constraint s lb ub name; Some (r.1, ConstraintHandle r.2)
  | MpSetConstraintCoeff ci vi coeff =>
      s' ← mpsolver_set_constraint_coeff s ci vi coeff; Some (s', Nothing)
  | MpSetObjectiveCoeff vi coeff =>
      s' ← mpsolver_set_objective_coeff s vi coeff; Some (s', Nothing)
  | MpMinimize => Some (mpsolver_minimize s, Nothing)
  | MpMaximize => Some (mpsolver_maximize s, Nothing)
  | MpSolve =>
      let r := mpsolver_solve LP_OPTIMAL LP_FEASIBLE LP_INFEASIBLE LP_UNBOUNDED
                 MPSolver_Solve s in
      Some (r.1, SolveStatus r.2)
  end.

Fixpoint mp_run (s : MpSolver) (calls : list mp_call)
  : option (MpSolver * list mp_returned) :=
  match calls with
  | [] => Some (s, [])
  | c :: rest =>
      r ← mp_step s c;
      r' ← mp_run r.1 rest;
      Some (r'.1, r.2 :: r'.2)
  end.

End Calls.

(** ** Reference notions the properties are stated against *)

(** A double that is strictly positive: a positive finite value or plus
    infinity. *)
Definition double_strictly_positive (x : double) : Prop :=
  match x with
  | S754_finite false _ _ | S754_infinity false => True
  | _ => False
  end.

(** A double that is zero (of either sign) or negative. *)
Definition double_zero_or_negative (x : double) : Prop :=
  match x with
  | S754_zero _ | S754_finite true _ _ | S754_infinity true => True
  | _ => False
  end.



(** A handle that refers to a variable of the table. *)
Definition valid_handle (table : list IntVar) (hd : Z) : Prop :=
  0 <= hd < Z.of_nat (length table) /\ int32_range hd.

(** The first table size that a 32-bit handle cannot hold. *)
Definition two31 : nat := Z.to_nat (2 ^ 31).

(** ** Concrete objects on which the properties are run *)

Module Demo.

(** An engine that finds nothing. *)
Definition engine (_ : CpModelProto) (_ : SatParameters) : sat_CpSolverResponse :=
  {| status := NativeCodes.CP_UNKNOWN; objective_value := double_zero;
     solution := []; wall_time := double_zero |}.

Definition lp_engine (s : MPSolver) : MPSolver * Z := (s, NativeCodes.LP_NOT_SOLVED).

Definition heap : Heap :=
  {| heap_models := {[ 1%positive := cpmodel_new ]}; heap_responses := ∅ |}.

(** 1.5 seconds. *)
Definition one_and_a_half : double := S754_finite false (3 * 2 ^ 51) (-52).

(** A model with the two variables [a], [b] in [0,2], and a third. *)
Definition three_vars : CpModelBuilder :=
  {| builder :=
       {| proto_variables :=
            [ {| variable_name := "a"; variable_domain := {| domain_lb := 0; domain_ub := 2 |} |};
              {| variable_name := "b"; variable_domain := {| domain_lb := 0; domain_ub := 2 |} |};
              {| variable_name := EmptyString;
                 variable_domain := {| domain_lb := 0; domain_ub := 1 |} |} ];
          proto_constraints := []; proto_objective := None |};
     vars := [ {| index := 0 |}; {| index := 1 |}; {| index := 2 |} ] |}.

Definition cp_calls : list cp_call :=
  [ CpNewIntVar 0 2 (Some "a"%string);
    CpNewBoolVar None;
    CpAddLinearLe [0; 1] [1; 1] 2 2;
    CpSolve one_and_a_half;
    CpNewIntVar 0 2 (Some EmptyString);
    CpMaximize [2] [1] 1 ].

Definition mp_calls : list mp_call :=
  [ MpNumVar double_zero double_one (Some "y"%string);
    MpAddConstraint double_zero double_one None;
    MpSetConstraintCoeff 0 0 double_one;
    MpBoolVar None;
    MpMaximize;
    MpSolve;
    MpAddConstraint double_zero double_zero (Some "r"%string) ].

(** What the calls of [mp_calls] return. *)
Definition mp_returns : list mp_returned :=
  [ VariableHandle 0; ConstraintHandle 0; Nothing; VariableHandle 1; Nothing;
    SolveStatus ORTOOLS_STATUS_ERROR; ConstraintHandle 1 ].

(** A solver as [mpsolver_new] makes it from a null name. *)
Definition new_solver : MpSolver :=
  {| solver := MP.make "solver" GLOP_LINEAR_PROGRAMMING;
     variables := []; constraints := [] |}.

(** Scenario A: one Boolean variable [x], the constraint [x >= 1],
    maximize [x]; the engine's answer. *)
Definition scenario_a : CpSolverResponse :=
  {| response :=
       {| status := NativeCodes.CP_OPTIMAL; objective_value := double_one;
          solution := [1]; wall_time := double_zero |};
     model :=
       {| proto_variables :=
            [ {| variable_name := "x";
                 variable_domain := {| domain_lb := 0; domain_ub := 1 |} |} ];
          proto_constraints :=
            [ LinearConstraint {| terms := [({| index := 0 |}, 1)]; constant := 0 |}
                GreaterOrEqual 1 ];
          proto_objective :=
            Some (Maximization, {| terms := [({| index := 0 |}, 1)]; constant := 0 |}) |} |}.

(** One variable [x] in [0, 2^53 + 1], maximize [x]: the optimum is
    [2^53 + 1], which the engine reports through a double. *)
Definition large_objective : CpSolverResponse :=
  {| response :=
       {| status := NativeCodes.CP_OPTIMAL;
          objective_value := double_of_int64 (2 ^ 53 + 1);
          solution := [2 ^ 53 + 1]; wall_time := double_zero |};
     model :=
       {| proto_variables :=
            [ {| variable_name := "x";
                 variable_domain := {| domain_lb := 0; domain_ub := 2 ^ 53 + 1 |} |} ];
          proto_constraints := [];
          proto_objective :=
            Some (Maximization, {| terms := [({| index := 0 |}, 1)]; constant := 0 |}) |} |}.

End Demo.

(** ** Linear solver: reading the solution *)

Section LinearAccessors.

(** The engine's accessors to the state a solve leaves behind. *)
Variable MPVariable_solution_value : MPSolver -> nat -> double.
Variable MPObjective_Value : MPSolver -> double.

Definition mpsolver_objective_value (s : MpSolver) : double :=
  MPObjective_Value (solver s).

Definition mpsolver_var_value (s : MpSolver) (var_idx : Z) : option double :=
  var ← vec_at (variables s) var_idx;
  Some (MPVariable_solution_value (solver s) var).

End LinearAccessors.

(** ** Well-formed models *)

(** The handle table lists the engine's variables in the order of their
    creation: the entry at position [i] is the variable at position [i]
    of the compiled model. *)
Definition table_in_sync (m : CpModelBuilder) : Prop :=
  vars m = (fun i => {| index := i |}) <$> seq 0 (length (proto_variables (builder m))).

(** Every variable an expression mentions is one of the first [n]. *)
Definition expr_within (n : nat) (e : LinearExpr) : Prop :=
  Forall (fun t => (index t.1 < n)%nat) (terms e).

Definition constraint_within (n : nat) (c : ConstraintProto) : Prop :=
  match c with
  | LinearConstraint e _ _ => expr_within n e
  | AllDifferentConstraint vs => Forall (fun v => (index v < n)%nat) vs
  end.

(** A compiled model is closed when its constraints and its objective
    mention only variables the model has. *)
Definition model_closed (p : CpModelProto) : Prop :=
  Forall (constraint_within (length (proto_variables p))) (proto_constraints p)
  /\ match proto_objective p with
     | Some (_, e) => expr_within (length (proto_variables p)) e
     | None => True
     end.

(** The name a variable gets from a [const char*] argument of the CP-SAT
    creation calls: none for a null pointer. *)
Definition given_name (name : c_str) : string := default EmptyString name.

(** 2.75 and its opposite. *)
Definition two_and_three_quarters : double := S754_finite false (11 * 2 ^ 49) (-51).
Definition minus_two_and_three_quarters : double := S754_finite true (11 * 2 ^ 49) (-51).

(** A response that differs from [r] in the objective field only. *)
Definition with_objective_value (r : CpSolverResponse) (x : double) : CpSolverResponse :=
  {| response :=
       {| status := status (response r); objective_value := x;
          solution := solution (response r); wall_time := wall_time (response r) |};
     model := model r |}.

(** The calls of a sequence that solve the model. *)
Definition is_solve (c : cp_call) : bool :=
  match c with CpSolve _ => true | _ => false end.

Definition solve_count (calls : list cp_call) : nat :=
  length (filter (fun c => is_solve c = true) calls).

(** * Properties *)

(** ** Status normalizers *)

(** C3. The normalizers are defined on every native code: a CP-SAT code
    that is none of OPTIMAL, FEASIBLE, INFEASIBLE, MODEL_INVALID maps to
    UNKNOWN, a linear-solver code that is none of OPTIMAL, FEASIBLE,
    INFEASIBLE, UNBOUNDED maps to ERROR, and every code maps to a status
    of the shared enumeration. *)
Theorem convert_status_fallback :
  forall cpO cpF cpI cpM lpO lpF lpI lpU : Z,
    (forall st, st <> cpO -> st <> cpF -> st <> cpI -> st <> cpM ->
       convert_cp_status cpO cpF cpI cpM st = ORTOOLS_STATUS_UNKNOWN)
    /\ (forall st, st <> lpO -> st <> lpF -> st <> lpI -> st <> lpU ->
          convert_lp_status lpO lpF lpI lpU st = ORTOOLS_STATUS_ERROR)
    /\ (forall st, exists r,
          convert_cp_status cpO cpF cpI cpM st = r
          /\ r ∈ [ORTOOLS_STATUS_OPTIMAL; ORTOOLS_STATUS_FEASIBLE;
                  ORTOOLS_STATUS_INFEASIBLE; ORTOOLS_STATUS_MODEL_INVALID;
                  ORTOOLS_STATUS_UNKNOWN])
    /\ (forall st, exists r,
          convert_lp_status lpO lpF lpI lpU st = r
          /\ r ∈ [ORTOOLS_STATUS_OPTIMAL; ORTOOLS_STATUS_FEASIBLE;
                  ORTOOLS_STATUS_INFEASIBLE; ORTOOLS_STATUS_UNBOUNDED;
                  ORTOOLS_STATUS_ERROR]).
Proof.
  intros. unfold convert_cp_status, convert_lp_status.
  repeat split; intros.
  - repeat (case_match; [lia|]). reflexivity.
  - repeat (case_match; [lia|]). reflexivity.
  - eexists; split; [reflexivity|]. repeat case_match; set_solver.
  - eexists; split; [reflexivity|]. repeat case_match; set_solver.
Qed.

Lemma convert_status_fallback_witness :
  NativeCodes.cp_status NativeCodes.CP_UNKNOWN = ORTOOLS_STATUS_UNKNOWN
  /\ NativeCodes.lp_status NativeCodes.LP_NOT_SOLVED = ORTOOLS_STATUS_ERROR.
Proof.
  destruct (convert_status_fallback
              NativeCodes.CP_OPTIMAL NativeCodes.CP_FEASIBLE
              NativeCodes.CP_INFEASIBLE NativeCodes.CP_MODEL_INVALID
              NativeCodes.LP_OPTIMAL NativeCodes.LP_FEASIBLE
              NativeCodes.LP_INFEASIBLE NativeCodes.LP_UNBOUNDED) as (Hcp & Hlp & _).
  split; [apply Hcp | apply Hlp]; vm_compute; discriminate.
Defined.

(** C4. The CP-SAT normalizer never yields UNBOUNDED or ERROR and the
    linear normalizer never yields MODEL_INVALID or UNKNOWN, while
    UNBOUNDED is produced by the linear normalizer and MODEL_INVALID by
    the CP-SAT one. *)
Theorem status_reachability :
  forall cpO cpF cpI cpM lpO lpF lpI lpU : Z,
    cpM <> cpO -> cpM <> cpF -> cpM <> cpI ->
    lpU <> lpO -> lpU <> lpF -> lpU <> lpI ->
    (forall st, convert_cp_status cpO cpF cpI cpM st <> ORTOOLS_STATUS_UNBOUNDED
                /\ convert_cp_status cpO cpF cpI cpM st <> ORTOOLS_STATUS_ERROR)
    /\ (forall st, convert_lp_status lpO lpF lpI lpU st <> ORTOOLS_STATUS_MODEL_INVALID
                   /\ convert_lp_status lpO lpF lpI lpU st <> ORTOOLS_STATUS_UNKNOWN)
    /\ (exists st, convert_lp_status lpO lpF lpI lpU st = ORTOOLS_STATUS_UNBOUNDED)
    /\ (exists st, convert_cp_status cpO cpF cpI cpM st = ORTOOLS_STATUS_MODEL_INVALID).
Proof.
  intros * H1 H2 H3 H4 H5 H6. unfold convert_cp_status, convert_lp_status.
  split; [|split; [|split]].
  - intros st. split; repeat case_match; discriminate.
  - intros st. split; repeat case_match; discriminate.
  - exists lpU. repeat (case_match; [lia|]). rewrite Z.eqb_refl. reflexivity.
  - exists cpM. repeat (case_match; [lia|]). rewrite Z.eqb_refl. reflexivity.
Qed.

Lemma status_reachability_witness :
  (forall st, NativeCodes.cp_status st <> ORTOOLS_STATUS_UNBOUNDED
              /\ NativeCodes.cp_status st <> ORTOOLS_STATUS_ERROR)
  /\ (forall st, NativeCodes.lp_status st <> ORTOOLS_STATUS_MODEL_INVALID
                 /\ NativeCodes.lp_status st <> ORTOOLS_STATUS_UNKNOWN)
  /\ (exists st, NativeCodes.lp_status st = ORTOOLS_STATUS_UNBOUNDED)
  /\ (exists st, NativeCodes.cp_status st = ORTOOLS_STATUS_MODEL_INVALID).
Proof.
  apply (status_reachability
           NativeCodes.CP_OPTIMAL NativeCodes.CP_FEASIBLE
           NativeCodes.CP_INFEASIBLE NativeCodes.CP_MODEL_INVALID
           NativeCodes.LP_OPTIMAL NativeCodes.LP_FEASIBLE
           NativeCodes.LP_INFEASIBLE NativeCodes.LP_UNBOUNDED);
    vm_compute; discriminate.
Defined.

(** ** Backend selection and names *)

Lemma select_problem_type_other (solver_type : Z) :
  solver_type <> ORTOOLS_LP_GLOP -> solver_type <> ORTOOLS_LP_CLP ->
  solver_type <> ORTOOLS_MIP_CBC -> solver_type <> ORTOOLS_MIP_SCIP ->
  select_problem_type solver_type = GLOP_LINEAR_PROGRAMMING.
Proof.
  intros. unfold select_problem_type.
  repeat (case_match; [lia|]). reflexivity.
Qed.

(** C8. [mpsolver_new] always constructs a solver; the four named
    selectors give their engines, and any other selector value gives the
    default continuous backend GLOP. *)
Theorem mpsolver_new_backend :
  forall (name : c_str) (solver_type : Z),
    exists s,
      mpsolver_new name solver_type = Some s
      /\ (solver_type = ORTOOLS_LP_GLOP ->
          mp_problem_type (solver s) = GLOP_LINEAR_PROGRAMMING)
      /\ (solver_type = ORTOOLS_LP_CLP ->
          mp_problem_type (solver s) = CLP_LINEAR_PROGRAMMING)
      /\ (solver_type = ORTOOLS_MIP_CBC ->
          mp_problem_type (solver s) = CBC_MIXED_INTEGER_PROGRAMMING)
      /\ (solver_type = ORTOOLS_MIP_SCIP ->
          mp_problem_type (solver s) = SCIP_MIXED_INTEGER_PROGRAMMING)
      /\ (solver_type <> ORTOOLS_LP_GLOP -> solver_type <> ORTOOLS_LP_CLP ->
          solver_type <> ORTOOLS_MIP_CBC -> solver_type <> ORTOOLS_MIP_SCIP ->
          mp_problem_type (solver s) = GLOP_LINEAR_PROGRAMMING).
Proof.
  intros name solver_type.
  unfold mpsolver_new, name_or, read_c_str.
  destruct name as [n|]; simpl; eexists; (split; [reflexivity|]); simpl;
    (repeat split; [intros ->; reflexivity .. | apply select_problem_type_other]).
Qed.

Lemma mpsolver_new_backend_witness :
  exists s,
    mpsolver_new None 7 = Some s
    /\ mp_problem_type (solver s) = GLOP_LINEAR_PROGRAMMING.
Proof.
  destruct (mpsolver_new_backend None 7) as (s & Hs & _ & _ & _ & _ & Hother).
  exists s. split; [exact Hs|].
  apply Hother; vm_compute; discriminate.
Defined.

Lemma with_optional_name_null b var :
  with_optional_name b var None = Some b.
Proof. reflexivity. Qed.

Lemma with_optional_name_empty b var :
  with_optional_name b var (Some EmptyString) = Some b.
Proof. reflexivity. Qed.

(** C10. A null name is never read.  CP-SAT variable creation succeeds
    and leaves the new variable unnamed when the name is null or empty;
    the linear variable and row creations succeed on a null name and give
    the engine the empty string; [mpsolver_new] succeeds on a null name
    and names the solver "solver". *)
Theorem null_name_safe :
  (forall model lb ub name, name = None \/ name = Some EmptyString ->
     cpmodel_new_int_var model lb ub name =
       Some ({| builder :=
                  (sat.NewIntVar (builder model) {| domain_lb := lb; domain_ub := ub |}).1;
                vars := vars model
                        ++ [{| index := length (proto_variables (builder model)) |}] |},
             static_cast_int32 (length (vars model)))
     /\ variable_name <$> last (proto_variables
          (sat.NewIntVar (builder model) {| domain_lb := lb; domain_ub := ub |}).1)
        = Some EmptyString)
  /\ (forall model name, name = None \/ name = Some EmptyString ->
        cpmodel_new_bool_var model name =
          Some ({| builder := (sat.NewBoolVar (builder model)).1;
                   vars := vars model
                        ++ [{| index := length (proto_variables (builder model)) |}] |},
                static_cast_int32 (length (vars model))))
  /\ (forall s lb ub, exists s' idx,
        mpsolver_num_var s lb ub None = Some (s', idx)
        /\ mpvar_name <$> last (mp_variables (solver s')) = Some EmptyString)
  /\ (forall s lb ub, exists s' idx,
        mpsolver_int_var s lb ub None = Some (s', idx)
        /\ mpvar_name <$> last (mp_variables (solver s')) = Some EmptyString)
  /\ (forall s, exists s' idx,
        mpsolver_bool_var s None = Some (s', idx)
        /\ mpvar_name <$> last (mp_variables (solver s')) = Some EmptyString)
  /\ (forall s lb ub, exists s' idx,
        mpsolver_add_constraint s lb ub None = Some (s', idx)
        /\ row_name <$> last (mp_constraints (solver s')) = Some EmptyString)
  /\ (forall solver_type, exists s,
        mpsolver_new None solver_type = Some s
        /\ mp_name (solver s) = "solver"%string).
Proof.
  split; [|split; [|repeat split]].
  - intros model lb ub name Hname. split.
    + destruct Hname as [-> | ->]; reflexivity.
    + simpl. rewrite last_snoc. reflexivity.
  - intros model name [-> | ->]; reflexivity.
  - intros. do 2 eexists. split; [reflexivity|]. simpl. rewrite last_snoc. reflexivity.
  - intros. do 2 eexists. split; [reflexivity|]. simpl. rewrite last_snoc. reflexivity.
  - intros. do 2 eexists. split; [reflexivity|]. simpl. rewrite last_snoc. reflexivity.
  - intros. do 2 eexists. split; [reflexivity|]. simpl. rewrite last_snoc. reflexivity.
  - intros. eexists. split; reflexivity.
Qed.

Lemma null_name_safe_witness :
  cpmodel_new_int_var cpmodel_new 0 2 None =
    Some ({| builder :=
               {| proto_variables :=
                    [{| variable_name := EmptyString;
                        variable_domain := {| domain_lb := 0; domain_ub := 2 |} |}];
                  proto_constraints := []; proto_objective := None |};
             vars := [{| index := 0 |}] |}, 0).
Proof.
  destruct null_name_safe as (Hint & _).
  destruct (Hint cpmodel_new 0 2 None) as [Hcall _]; [left; reflexivity|].
  exact Hcall.
Defined.

(** ** The time limit of a CP-SAT solve *)

Lemma double_gt_zero_positive (t : double) :
  double_gt_zero t = true <-> double_strictly_positive t.
Proof.
  destruct t as [s | s | | s m e]; try destruct s; simpl;
    unfold double_gt_zero; simpl; intuition discriminate.
Qed.

Lemma solve_parameters_positive (t : double) :
  double_strictly_positive t ->
  solve_parameters t = {| max_time_in_seconds := Some t |}.
Proof.
  intros Ht. apply double_gt_zero_positive in Ht.
  unfold solve_parameters. rewrite Ht. reflexivity.
Qed.

Lemma solve_parameters_not_positive (t : double) :
  ~ double_strictly_positive t ->
  solve_parameters t = SatParameters_default.
Proof.
  intros Ht. unfold solve_parameters.
  destruct (double_gt_zero t) eqn:E; [|reflexivity].
  apply double_gt_zero_positive in E. contradiction.
Qed.

Lemma zero_or_negative_not_positive (t : double) :
  double_zero_or_negative t -> ~ double_strictly_positive t.
Proof. destruct t as [s | s | | s m e]; try destruct s; simpl; tauto. Qed.

(** C5. A call to [cpmodel_solve] on a live builder runs the engine with
    parameters in which the wall-clock cutoff is set, to the given value,
    exactly when [time_limit_seconds] is strictly positive; with a zero
    or negative value the parameters are the defaults, which carry no
    cutoff. *)
Theorem solve_time_limit :
  forall (SolveWithParameters : CpModelProto -> SatParameters -> sat_CpSolverResponse)
         (h : Heap) (l : positive) (time_limit_seconds : double) (m : CpModelBuilder),
    heap_models h !! l = Some m ->
    exists h' r res params,
      cpmodel_solve SolveWithParameters h l time_limit_seconds = Some (h', r)
      /\ heap_responses h' !! r = Some res
      /\ response res = SolveWithParameters (sat.Build (builder m)) params
      /\ params = solve_parameters time_limit_seconds
      /\ (max_time_in_seconds params <> None <->
          double_strictly_positive time_limit_seconds)
      /\ (double_strictly_positive time_limit_seconds ->
          max_time_in_seconds params = Some time_limit_seconds)
      /\ (double_zero_or_negative time_limit_seconds ->
          params = SatParameters_default
          /\ max_time_in_seconds params = None).
Proof.
  intros S h l t m Hm.
  unfold cpmodel_solve. rewrite Hm. simpl.
  do 4 eexists. split; [reflexivity|]. simpl.
  split; [apply lookup_insert_eq|]. simpl.
  split; [reflexivity|]. split; [reflexivity|].
  split; [|split].
  - split.
    + intros Hset. destruct (double_gt_zero t) eqn:E.
      * apply double_gt_zero_positive. exact E.
      * exfalso. apply Hset. unfold solve_parameters. rewrite E. reflexivity.
    + intros Hpos. rewrite (solve_parameters_positive t Hpos). discriminate.
  - intros Hpos. rewrite (solve_parameters_positive t Hpos). reflexivity.
  - intros Hneg. apply zero_or_negative_not_positive in Hneg.
    rewrite (solve_parameters_not_positive t Hneg). split; reflexivity.
Qed.

Lemma solve_time_limit_witness :
  exists h' r res params,
    cpmodel_solve Demo.engine Demo.heap 1%positive Demo.one_and_a_half = Some (h', r)
    /\ heap_responses h' !! r = Some res
    /\ response res = Demo.engine (builder cpmodel_new) params
    /\ max_time_in_seconds params = Some Demo.one_and_a_half.
Proof.
  destruct (solve_time_limit Demo.engine Demo.heap 1%positive Demo.one_and_a_half
              cpmodel_new)
    as (h' & r & res & params & Hcall & Hres & Hresp & _ & _ & Hset & _);
    [reflexivity|].
  exists h', r, res, params.
  split; [exact Hcall|]. split; [exact Hres|]. split; [exact Hresp|].
  apply Hset. simpl. exact I.
Defined.

(** ** Linear expressions *)

Lemma wrap_signed_64_id (z : Z) : int64_range z -> wrap_signed 64 z = z.
Proof.
  unfold int64_range, wrap_signed. intros Hz.
  rewrite Z.mod_small; lia.
Qed.

Lemma vec_at_valid (table : list IntVar) (hd : Z) :
  valid_handle table hd -> exists v, vec_at table hd = Some v.
Proof.
  intros [Hlt Hrange]. unfold int32_range in Hrange.
  unfold vec_at, to_size_t.
  apply lookup_lt_is_Some. rewrite Z.mod_small; lia.
Qed.



(** One turn of the loop appends the single term [(v, c)]. *)
Lemma add_assign_term e v c :
  constant e = 0 -> int64_range c ->
  LinearExpr_add_assign e (LinearExpr_mul (LinearExpr_of_var v) c)
  = {| terms := terms e ++ [(v, c)]; constant := constant e |}.
Proof.
  intros He Hc. unfold LinearExpr_add_assign, LinearExpr_mul, LinearExpr_of_var.
  simpl. rewrite He. f_equal.
  rewrite Z.mul_1_l, wrap_signed_64_id by exact Hc. reflexivity.
Qed.




(** ** Handles *)

Lemma static_cast_int32_small (n : nat) :
  Z.of_nat n < 2 ^ 31 -> static_cast_int32 n = Z.of_nat n.
Proof.
  intros Hn. unfold static_cast_int32, wrap_signed.
  rewrite Z.mod_small; lia.
Qed.

Lemma two31_Z : Z.of_nat two31 = 2 ^ 31.
Proof. unfold two31. apply Z2Nat.id. lia. Qed.

Lemma static_cast_int32_two31 : static_cast_int32 two31 = - 2 ^ 31.
Proof. unfold static_cast_int32. rewrite two31_Z. reflexivity. Qed.

Section HandleTables.

Variable SolveWithParameters : CpModelProto -> SatParameters -> sat_CpSolverResponse.
Variables LP_OPTIMAL LP_FEASIBLE LP_INFEASIBLE LP_UNBOUNDED : Z.
Variable MPSolver_Solve : MPSolver -> MPSolver * Z.

(** A call on a builder either appends one variable to the table and
    returns the former size of the table, or leaves the table alone. *)
Lemma cp_step_vars h l c h' r :
  cp_step SolveWithParameters h l c = Some (h', r) ->
  exists m m',
    heap_models h !! l = Some m
    /\ heap_models h' !! l = Some m'
    /\ match r with
       | Some idx =>
           idx = static_cast_int32 (length (vars m))
           /\ exists v, vars m' = vars m ++ [v]
       | None => vars m' = vars m
       end.
Proof.
  intros Hstep.
  destruct c; simpl in Hstep;
    unfold on_model_returning, on_model, cpmodel_solve,
      cpmodel_new_int_var, cpmodel_new_bool_var,
      cpmodel_add_linear_le, cpmodel_add_linear_ge, cpmodel_add_linear_eq,
      cpmodel_add_all_different, cpmodel_minimize, cpmodel_maximize in Hstep;
    simpl in Hstep;
    destruct (heap_models h !! l) as [m|] eqn:Hm; simplify_option_eq;
    eexists _, _; (split; [reflexivity|]); simpl;
    (split; [try apply lookup_insert_eq|]); simpl; eauto.
Qed.

Lemma cp_run_vars calls :
  forall h l h' handles m,
    heap_models h !! l = Some m ->
    cp_run SolveWithParameters h l calls = Some (h', handles) ->
    exists m',
      heap_models h' !! l = Some m'
      /\ vars m `prefix_of` vars m'
      /\ length (vars m') = (length (vars m) + length handles)%nat
      /\ forall n hd, handles !! n = Some hd ->
           hd = static_cast_int32 (length (vars m) + n).
Proof.
  induction calls as [|c rest IH]; intros h l h' handles m Hm Hrun; simpl in Hrun.
  - simplify_eq. exists m. split; [exact Hm|]. split; [reflexivity|].
    split; [simpl; lia|]. intros n hd Hn. rewrite lookup_nil in Hn. discriminate.
  - destruct (cp_step SolveWithParameters h l c) as [[h1 r]|] eqn:Hstep;
      [|discriminate].
    simpl in Hrun.
    destruct (cp_run SolveWithParameters h1 l rest) as [[h2 hs]|] eqn:Hrest;
      [|discriminate].
    simpl in Hrun. simplify_eq.
    destruct (cp_step_vars _ _ _ _ _ Hstep) as (m0 & m1 & Hm0 & Hm1 & Hr).
    rewrite Hm in Hm0. simplify_eq.
    destruct (IH _ _ _ _ _ Hm1 Hrest) as (m' & Hm' & Hpre & Hlen & Hhs).
    exists m'. split; [exact Hm'|].
    destruct r as [idx|].
    + destruct Hr as [-> [v Hv]]. rewrite Hv in Hpre, Hlen, Hhs.
      rewrite length_app in Hlen, Hhs. simpl in Hlen, Hhs.
      split; [etrans; [apply prefix_app_r; reflexivity | exact Hpre]|].
      split; [simpl; lia|].
      intros [|n] hd Hn; simpl in Hn.
      * simplify_eq. f_equal. lia.
      * rewrite (Hhs _ _ Hn). f_equal. lia.
    + rewrite Hr in Hpre, Hlen, Hhs. eauto.
Qed.

(** A call on a linear solver appends to one of the two tables and
    returns the former size of that table, or leaves both alone. *)
Lemma mp_step_tables s c s' r :
  mp_step LP_OPTIMAL LP_FEASIBLE LP_INFEASIBLE LP_UNBOUNDED MPSolver_Solve s c
  = Some (s', r) ->
  match r with
  | VariableHandle idx =>
      idx = static_cast_int32 (length (variables s))
      /\ constraints s' = constraints s
      /\ exists v, variables s' = variables s ++ [v]
  | ConstraintHandle idx =>
      idx = static_cast_int32 (length (constraints s))
      /\ variables s' = variables s
      /\ exists v, constraints s' = constraints s ++ [v]
  | _ => variables s' = variables s /\ constraints s' = constraints s
  end.
Proof.
  intros Hstep.
  destruct c; simpl in Hstep;
    unfold mpsolver_num_var, mpsolver_int_var, mpsolver_bool_var,
      mpsolver_add_constraint, mpsolver_set_constraint_coeff,
      mpsolver_set_objective_coeff, mpsolver_minimize, mpsolver_maximize,
      mpsolver_solve, name_or, read_c_str in Hstep;
    simpl in Hstep; try destruct name; try destruct (MPSolver_Solve (solver s));
    simplify_option_eq; eauto.
Qed.

Lemma mp_run_tables calls :
  forall s s' rs,
    mp_run LP_OPTIMAL LP_FEASIBLE LP_INFEASIBLE LP_UNBOUNDED MPSolver_Solve s calls
    = Some (s', rs) ->
    variables s `prefix_of` variables s'
    /\ constraints s `prefix_of` constraints s'
    /\ (forall n hd, variable_handles rs !! n = Some hd ->
          hd = static_cast_int32 (length (variables s) + n))
    /\ (forall n hd, constraint_handles rs !! n = Some hd ->
          hd = static_cast_int32 (length (constraints s) + n)).
Proof.
  induction calls as [|c rest IH]; intros s s' rs Hrun; simpl in Hrun.
  - simplify_eq. repeat split; try reflexivity;
      intros n hd Hn; unfold variable_handles, constraint_handles in Hn;
      simpl in Hn; rewrite lookup_nil in Hn; discriminate.
  - destruct (mp_step LP_OPTIMAL LP_FEASIBLE LP_INFEASIBLE LP_UNBOUNDED
                MPSolver_Solve s c) as [[s1 r]|] eqn:Hstep; [|discriminate].
    simpl in Hrun.
    destruct (mp_run LP_OPTIMAL LP_FEASIBLE LP_INFEASIBLE LP_UNBOUNDED
                MPSolver_Solve s1 rest) as [[s2 rs2]|] eqn:Hrest; [|discriminate].
    simpl in Hrun. simplify_eq.
    apply mp_step_tables in Hstep.
    destruct (IH _ _ _ Hrest) as (Hv & Hc & Hvh & Hch).
    unfold variable_handles, constraint_handles in *.
    destruct r as [idx | idx | st | ]; simpl.
    + destruct Hstep as (-> & Hcs & v & Hvs). rewrite Hcs, Hvs in *.
      rewrite length_app in Hvh. simpl in Hvh.
      split; [etrans; [apply prefix_app_r; reflexivity | exact Hv]|].
      split; [exact Hc|]. split; [|exact Hch].
      intros [|n] hd Hn; simpl in Hn.
      * simplify_eq. f_equal. lia.
      * rewrite (Hvh _ _ Hn). f_equal. lia.
    + destruct Hstep as (-> & Hvs & v & Hcs). rewrite Hcs, Hvs in *.
      rewrite length_app in Hch. simpl in Hch.
      split; [exact Hv|].
      split; [etrans; [apply prefix_app_r; reflexivity | exact Hc]|].
      split; [exact Hvh|].
      intros [|n] hd Hn; simpl in Hn.
      * simplify_eq. f_equal. lia.
      * rewrite (Hch _ _ Hn). f_equal. lia.
    + destruct Hstep as [Hvs Hcs]. rewrite Hvs, Hcs in *. eauto.
    + destruct Hstep as [Hvs Hcs]. rewrite Hvs, Hcs in *. eauto.
Qed.

End HandleTables.







Lemma static_cast_int32_range (n : nat) : int32_range (static_cast_int32 n).
Proof.
  unfold int32_range, static_cast_int32, wrap_signed.
  pose proof (Z.mod_pos_bound (Z.of_nat n + 2 ^ (32 - 1)) (2 ^ 32)) as Hb.
  change (2 ^ (32 - 1)) with (2 ^ 31) in *. lia.
Qed.

(** C9, amended.  A handle is a 32-bit integer, and the creation call
    number [n + 1] on a model returns a non-negative handle as long as
    [n] is below [2^31]: for the variables of a CP-SAT builder and for
    the variables and the rows of a linear solver. *)
Theorem handles_nonnegative :
  forall (SolveWithParameters : CpModelProto -> SatParameters -> sat_CpSolverResponse)
         (lpO lpF lpI lpU : Z) (MPSolver_Solve : MPSolver -> MPSolver * Z),
    (forall h l calls handles,
       heap_models h !! l = Some cpmodel_new ->
       snd <$> cp_run SolveWithParameters h l calls = Some handles ->
       forall n hd, handles !! n = Some hd ->
         int32_range hd /\ (Z.of_nat n < 2 ^ 31 -> 0 <= hd))
    /\ (forall name solver_type s calls rs,
          mpsolver_new name solver_type = Some s ->
          snd <$> mp_run lpO lpF lpI lpU MPSolver_Solve s calls = Some rs ->
          (forall n hd, variable_handles rs !! n = Some hd ->
             int32_range hd /\ (Z.of_nat n < 2 ^ 31 -> 0 <= hd))
          /\ (forall n hd, constraint_handles rs !! n = Some hd ->
                int32_range hd /\ (Z.of_nat n < 2 ^ 31 -> 0 <= hd))).
Proof.
  intros S lpO lpF lpI lpU E. split.
  - intros h l calls handles Hm Hrun n hd Hn.
    destruct (cp_run S h l calls) as [[h' hs]|] eqn:Hrun'; [|discriminate].
    simpl in Hrun. simplify_eq.
    destruct (cp_run_vars S _ _ _ _ _ _ Hm Hrun') as (m' & _ & _ & _ & Hhs).
    rewrite (Hhs _ _ Hn). split; [apply static_cast_int32_range|].
    intros Hn31. simpl. rewrite static_cast_int32_small; lia.
  - intros name solver_type s calls rs Hnew Hrun.
    destruct (mp_run lpO lpF lpI lpU E s calls) as [[s' rs']|] eqn:Hrun';
      [|discriminate].
    simpl in Hrun. simplify_eq.
    destruct (mp_run_tables _ _ _ _ _ _ _ _ _ Hrun') as (_ & _ & Hvh & Hch).
    assert (Hs : variables s = [] /\ constraints s = []).
    { unfold mpsolver_new in Hnew. destruct (name_or name "solver"); simplify_eq/=.
      split; reflexivity. }
    destruct Hs as [Hvs Hcs]. rewrite Hvs in Hvh. rewrite Hcs in Hch.
    split; intros n hd Hn.
    + rewrite (Hvh _ _ Hn). split; [apply static_cast_int32_range|].
      intros Hn31. simpl. rewrite static_cast_int32_small; lia.
    + rewrite (Hch _ _ Hn). split; [apply static_cast_int32_range|].
      intros Hn31. simpl. rewrite static_cast_int32_small; lia.
Qed.

Lemma handles_nonnegative_witness :
  mpsolver_new None ORTOOLS_LP_GLOP = Some Demo.new_solver
  /\ snd <$> mp_run NativeCodes.LP_OPTIMAL NativeCodes.LP_FEASIBLE
               NativeCodes.LP_INFEASIBLE NativeCodes.LP_UNBOUNDED Demo.lp_engine
               Demo.new_solver Demo.mp_calls = Some Demo.mp_returns
  /\ constraint_handles Demo.mp_returns !! 1%nat = Some 1
  /\ 0 <= 1.
Proof.
  assert (Hnew : mpsolver_new None ORTOOLS_LP_GLOP = Some Demo.new_solver)
    by reflexivity.
  assert (Hrun : snd <$> mp_run NativeCodes.LP_OPTIMAL NativeCodes.LP_FEASIBLE
                   NativeCodes.LP_INFEASIBLE NativeCodes.LP_UNBOUNDED Demo.lp_engine
                   Demo.new_solver Demo.mp_calls = Some Demo.mp_returns)
    by (vm_compute; reflexivity).
  assert (Hn : constraint_handles Demo.mp_returns !! 1%nat = Some 1) by reflexivity.
  split; [exact Hnew|]. split; [exact Hrun|]. split; [exact Hn|].
  destruct (handles_nonnegative Demo.engine
              NativeCodes.LP_OPTIMAL NativeCodes.LP_FEASIBLE
              NativeCodes.LP_INFEASIBLE NativeCodes.LP_UNBOUNDED Demo.lp_engine)
    as (_ & Hmp).
  destruct (Hmp None ORTOOLS_LP_GLOP Demo.new_solver Demo.mp_calls Demo.mp_returns
              Hnew Hrun) as [_ Hch].
  destruct (Hch 1%nat 1 Hn) as [_ Hpos]. apply Hpos. simpl. lia.
Defined.

Lemma constraint_handles_fmap (f : nat -> Z) (l : list nat) :
  constraint_handles ((fun i => ConstraintHandle (f i)) <$> l) = f <$> l.
Proof.
  unfold constraint_handles.
  induction l as [|i l IH]; [reflexivity|].
  cbn [fmap list_fmap omap list_omap]. f_equal. exact IH.
Qed.

(** Creating [k] unnamed rows in a row returns the sizes of the row
    table, each cast to 32 bits. *)
Lemma mp_run_add_constraints lpO lpF lpI lpU E lb ub k :
  forall s,
    exists s',
      mp_run lpO lpF lpI lpU E s (replicate k (MpAddConstraint lb ub None))
      = Some (s', (fun i => ConstraintHandle
                              (static_cast_int32 (length (constraints s) + i)))
                    <$> seq 0 k).
Proof.
  induction k as [|k IH]; intros s.
  - exists s. reflexivity.
  - cbn [replicate mp_run mp_step].
    unfold mpsolver_add_constraint.
    cbn [name_or read_c_str mbind option_bind MP.MakeRowConstraint fst snd].
    match goal with
    | |- context [mp_run _ _ _ _ _ ?s1 _] => destruct (IH s1) as [s' Hrun]
    end.
    rewrite Hrun. cbn [mbind option_bind fst snd constraints].
    exists s'. do 2 f_equal.
    cbn [seq fmap list_fmap]. f_equal; [do 2 f_equal; lia|].
    rewrite <- fmap_S_seq, <- list_fmap_compose.
    apply list_fmap_ext. intros _ i _. cbn. rewrite length_app. do 2 f_equal.
    simpl. lia.
Qed.

(** C9 as stated fails: on a linear solver that starts empty, the row
    creation call number [2^31 + 1] returns a negative handle. *)
Lemma handle_negative_past_int32 :
  ~ (forall (lpO lpF lpI lpU : Z) (MPSolver_Solve : MPSolver -> MPSolver * Z)
            name solver_type s calls rs,
       mpsolver_new name solver_type = Some s ->
       snd <$> mp_run lpO lpF lpI lpU MPSolver_Solve s calls = Some rs ->
       forall n hd, constraint_handles rs !! n = Some hd -> 0 <= hd).
Proof.
  intros Hall.
  set (s := {| solver := MP.make "solver" GLOP_LINEAR_PROGRAMMING;
               variables := []; constraints := [] |}).
  set (calls := replicate (S two31) (MpAddConstraint double_zero double_one None)).
  destruct (mp_run_add_constraints
              NativeCodes.LP_OPTIMAL NativeCodes.LP_FEASIBLE
              NativeCodes.LP_INFEASIBLE NativeCodes.LP_UNBOUNDED Demo.lp_engine
              double_zero double_one (S two31) s) as [s' Hrun].
  fold calls in Hrun.
  set (rs := (fun i => ConstraintHandle
                         (static_cast_int32 (length (constraints s) + i)))
               <$> seq 0 (S two31)) in *.
  assert (Hn : constraint_handles rs !! two31 = Some (static_cast_int32 two31)).
  { unfold rs. rewrite constraint_handles_fmap.
    rewrite list_lookup_fmap, lookup_seq_lt by lia. reflexivity. }
  assert (Hsnd : snd <$> mp_run NativeCodes.LP_OPTIMAL NativeCodes.LP_FEASIBLE
                   NativeCodes.LP_INFEASIBLE NativeCodes.LP_UNBOUNDED Demo.lp_engine
                   s calls = Some rs).
  { rewrite Hrun. reflexivity. }
  assert (Hnew : mpsolver_new None ORTOOLS_LP_GLOP = Some s) by reflexivity.
  pose proof (Hall _ _ _ _ _ None ORTOOLS_LP_GLOP s calls rs Hnew Hsnd
                two31 (static_cast_int32 two31) Hn) as Hbad.
  rewrite static_cast_int32_two31 in Hbad. lia.
Qed.

(** ** The objective value of a CP-SAT response *)

Lemma digits2_pos_bounds (m : positive) :
  2 ^ (Z.pos (digits2_pos m) - 1) <= Z.pos m < 2 ^ Z.pos (digits2_pos m).
Proof.
  induction m as [m IH | m IH |]; simpl digits2_pos.
  - rewrite Pos2Z.inj_succ.
    replace (Z.succ (Z.pos (digits2_pos m)) - 1)
      with (Z.succ (Z.pos (digits2_pos m) - 1)) by lia.
    rewrite !Z.pow_succ_r by lia. lia.
  - rewrite Pos2Z.inj_succ.
    replace (Z.succ (Z.pos (digits2_pos m)) - 1)
      with (Z.succ (Z.pos (digits2_pos m) - 1)) by lia.
    rewrite !Z.pow_succ_r by lia. lia.
  - simpl. lia.
Qed.

Lemma digits2_pos_le_53 (m : positive) :
  Z.pos m < 2 ^ 53 -> Z.pos (digits2_pos m) <= 53.
Proof.
  intros Hm. pose proof (digits2_pos_bounds m) as [Hlo _].
  destruct (Z_le_gt_dec (Z.pos (digits2_pos m)) 53) as [Hle|Hgt]; [exact Hle|].
  exfalso.
  assert (2 ^ 53 <= 2 ^ (Z.pos (digits2_pos m) - 1)) by (apply Z.pow_le_mono_r; lia).
  lia.
Qed.

Lemma iter_xO_value (m p : positive) :
  Z.pos (Pos.iter xO m p) = Z.pos m * 2 ^ Z.pos p.
Proof.
  induction p as [|p IH] using Pos.peano_ind.
  - simpl. lia.
  - rewrite Pos.iter_succ, Pos2Z.inj_succ, Z.pow_succ_r by lia.
    rewrite Pos2Z.inj_xO, IH. lia.
Qed.

Lemma iter_xO_digits (m p : positive) :
  digits2_pos (Pos.iter xO m p) = (digits2_pos m + p)%positive.
Proof.
  induction p as [|p IH] using Pos.peano_ind.
  - simpl. lia.
  - rewrite Pos.iter_succ. simpl. rewrite IH. lia.
Qed.

(** A mantissa of 53 digits with an exponent in range is already a
    double: rounding leaves it as it is. *)
Lemma binary_round_aux_exact (s : bool) (mz : positive) (ez : Z) :
  Z.pos (digits2_pos mz) = 53 -> -1074 <= ez <= 971 ->
  binary_round_aux double_prec double_emax s (Z.pos mz) ez loc_Exact
  = S754_finite s mz ez.
Proof.
  intros Hd He.
  assert (Hshift : fexp double_prec double_emax (Z.pos (digits2_pos mz) + ez) - ez = 0).
  { unfold fexp, emin, double_prec, double_emax. rewrite Hd. lia. }
  unfold binary_round_aux, shr_fexp. cbn [Zdigits2 shr_record_of_loc].
  rewrite Hshift. cbn [shr shr_m loc_of_shr_record round_nearest_even].
  cbn [Zdigits2 shr_record_of_loc]. rewrite Hshift. cbn [shr shr_m].
  replace (ez <=? double_emax - double_prec) with true; [reflexivity|].
  symmetry. apply Z.leb_le. unfold double_emax, double_prec. lia.
Qed.

(** The double nearest to a positive integer below [2^53] is the integer
    itself, its mantissa shifted to 53 digits. *)
Lemma binary_round_small (s : bool) (m : positive) :
  Z.pos m < 2 ^ 53 ->
  exists mz k,
    binary_round double_prec double_emax s m 0 = S754_finite s mz (- k)
    /\ 0 <= k <= 52
    /\ Z.pos mz = Z.pos m * 2 ^ k.
Proof.
  intros Hm. pose proof (digits2_pos_le_53 m Hm) as Hd.
  unfold binary_round, shl_align.
  assert (Hf : fexp double_prec double_emax (Z.pos (digits2_pos m) + 0)
               = Z.pos (digits2_pos m) - 53).
  { unfold fexp, emin, double_prec, double_emax. lia. }
  rewrite Hf.
  destruct (Z.pos (digits2_pos m) - 53 - 0) as [|p|p] eqn:Hdiff; [| lia |].
  - exists m, 0. rewrite binary_round_aux_exact by lia.
    split; [reflexivity|]. split; [lia|]. simpl. lia.
  - exists (Pos.iter xO m p), (Z.pos p).
    rewrite binary_round_aux_exact.
    + split; [f_equal; lia|]. split; [lia|]. apply iter_xO_value.
    + rewrite iter_xO_digits. lia.
    + lia.
Qed.

Lemma double_trunc_shifted (s : bool) (mz : positive) (k a : Z) :
  0 <= k -> Z.pos mz = a * 2 ^ k ->
  double_trunc (S754_finite s mz (- k)) = Some (if s then - a else a).
Proof.
  intros Hk Hmz. unfold double_trunc.
  destruct (0 <=? - k) eqn:E.
  - apply Z.leb_le in E. assert (k = 0) as -> by lia.
    change (- 0) with 0. rewrite Z.pow_0_r, Z.mul_1_r in *.
    rewrite Hmz. reflexivity.
  - rewrite Z.opp_involutive, Hmz, Z.div_mul by lia. reflexivity.
Qed.

(** Integers of magnitude at most [2^53] survive the passage through a
    double. *)
Lemma static_cast_int64_double_of_int64 (z : Z) :
  Z.abs z <= 2 ^ 53 -> static_cast_int64 (double_of_int64 z) = Some z.
Proof.
  intros Hz.
  destruct (Z.eq_dec (Z.abs z) (2 ^ 53)) as [Heq|Hne].
  { destruct (Z.abs_eq_or_opp z) as [Ha|Ha]; rewrite Ha in Heq.
    - subst z. vm_compute. reflexivity.
    - assert (z = - 2 ^ 53) as -> by lia. vm_compute. reflexivity. }
  unfold double_of_int64, binary_normalize.
  destruct z as [|m|m].
  - reflexivity.
  - destruct (binary_round_small false m) as (mz & k & -> & Hk & Hmz); [lia|].
    unfold static_cast_int64.
    rewrite (double_trunc_shifted false mz k (Z.pos m)) by lia.
    cbn [mbind option_bind].
    replace ((- 2 ^ 63 <=? Z.pos m) && (Z.pos m <? 2 ^ 63)) with true; [reflexivity|].
    symmetry. apply andb_true_intro. split; [apply Z.leb_le | apply Z.ltb_lt]; lia.
  - destruct (binary_round_small true m) as (mz & k & -> & Hk & Hmz); [lia|].
    unfold static_cast_int64.
    rewrite (double_trunc_shifted true mz k (Z.pos m)) by lia.
    cbn [mbind option_bind].
    change (- Z.pos m) with (Z.neg m).
    replace ((- 2 ^ 63 <=? Z.neg m) && (Z.neg m <? 2 ^ 63)) with true; [reflexivity|].
    symmetry. apply andb_true_intro. split; [apply Z.leb_le | apply Z.ltb_lt]; lia.
Qed.

(** C7, amended.  For a result whose status is OPTIMAL or FEASIBLE and
    whose integer objective has magnitude at most [2^53],
    [cpresponse_objective_value] returns that objective exactly. *)
Theorem objective_value_exact :
  forall (cpO cpF cpI cpM : Z) (r : CpSolverResponse) (obj : Z),
    cpresponse_status cpO cpF cpI cpM r = ORTOOLS_STATUS_OPTIMAL
    \/ cpresponse_status cpO cpF cpI cpM r = ORTOOLS_STATUS_FEASIBLE ->
    reports_objective r obj ->
    Z.abs obj <= 2 ^ 53 ->
    cpresponse_objective_value r = Some obj.
Proof.
  intros cpO cpF cpI cpM r obj _ [_ Hfield] Hobj.
  unfold cpresponse_objective_value. rewrite Hfield.
  apply static_cast_int64_double_of_int64. exact Hobj.
Qed.

Lemma objective_value_exact_witness :
  cpresponse_status NativeCodes.CP_OPTIMAL NativeCodes.CP_FEASIBLE
    NativeCodes.CP_INFEASIBLE NativeCodes.CP_MODEL_INVALID Demo.scenario_a
  = ORTOOLS_STATUS_OPTIMAL
  /\ reports_objective Demo.scenario_a 1
  /\ cpresponse_objective_value Demo.scenario_a = Some 1.
Proof.
  assert (Hst : cpresponse_status NativeCodes.CP_OPTIMAL NativeCodes.CP_FEASIBLE
                  NativeCodes.CP_INFEASIBLE NativeCodes.CP_MODEL_INVALID Demo.scenario_a
                = ORTOOLS_STATUS_OPTIMAL) by reflexivity.
  assert (Hrep : reports_objective Demo.scenario_a 1)
    by (split; vm_compute; reflexivity).
  split; [exact Hst|]. split; [exact Hrep|].
  apply (objective_value_exact NativeCodes.CP_OPTIMAL NativeCodes.CP_FEASIBLE
           NativeCodes.CP_INFEASIBLE NativeCodes.CP_MODEL_INVALID Demo.scenario_a 1).
  - left. exact Hst.
  - exact Hrep.
  - simpl. lia.
Defined.

(** C7 as stated fails: with the optimum [2^53 + 1] the value returned is
    [2^53]. *)
Lemma objective_value_loses_precision :
  ~ (forall (cpO cpF cpI cpM : Z) (r : CpSolverResponse) (obj : Z),
       cpresponse_status cpO cpF cpI cpM r = ORTOOLS_STATUS_OPTIMAL
       \/ cpresponse_status cpO cpF cpI cpM r = ORTOOLS_STATUS_FEASIBLE ->
       reports_objective r obj ->
       int64_range obj ->
       cpresponse_objective_value r = Some obj).
Proof.
  intros Hall.
  assert (Hret : cpresponse_objective_value Demo.large_objective = Some (2 ^ 53))
    by (vm_compute; reflexivity).
  specialize (Hall NativeCodes.CP_OPTIMAL NativeCodes.CP_FEASIBLE
                NativeCodes.CP_INFEASIBLE NativeCodes.CP_MODEL_INVALID
                Demo.large_objective (2 ^ 53 + 1)).
  rewrite Hret in Hall.
  assert (Hbad : Some (2 ^ 53) = Some (2 ^ 53 + 1)).
  { apply Hall.
    - left. reflexivity.
    - split; vm_compute; reflexivity.
    - unfold int64_range. lia. }
  discriminate Hbad.
Qed.

(** ** Results of a CP-SAT solve *)

(** C6.  A call to [cpmodel_solve] on a live builder returns the address
    of a result object that was not allocated before, leaves every
    builder and every earlier result as it was, and fills the new result
    with the compiled model of the builder and the engine's answer to
    that model and the time limit, and to nothing else.  After any
    further call on the builder, a second solve returns another fresh
    result, determined in the same way by the builder as it then is,
    while the first result keeps its contents. *)
Theorem solve_fresh_independent :
  forall (SolveWithParameters : CpModelProto -> SatParameters -> sat_CpSolverResponse)
         (h : Heap) (l : positive) (time_limit_seconds : double) (m : CpModelBuilder),
    heap_models h !! l = Some m ->
    exists h' r,
      cpmodel_solve SolveWithParameters h l time_limit_seconds = Some (h', r)
      /\ heap_responses h !! r = None
      /\ heap_models h' = heap_models h
      /\ (forall r0, r0 <> r -> heap_responses h' !! r0 = heap_responses h !! r0)
      /\ heap_responses h' !! r
         = Some {| response := SolveWithParameters (builder m)
                                 (solve_parameters time_limit_seconds);
                   model := builder m |}
      /\ (forall call h1 t2,
            on_model h' l call = Some h1 ->
            exists h2 r2 m1,
              cpmodel_solve SolveWithParameters h1 l t2 = Some (h2, r2)
              /\ r2 <> r
              /\ heap_models h1 !! l = Some m1
              /\ call m = Some m1
              /\ heap_models h2 !! l = Some m1
              /\ heap_responses h2 !! r = heap_responses h' !! r
              /\ heap_responses h2 !! r2
                 = Some {| response := SolveWithParameters (builder m1)
                                         (solve_parameters t2);
                           model := builder m1 |}).
Proof.
  intros S h l t m Hm.
  assert (Hfresh : forall (rs : gmap positive CpSolverResponse),
             rs !! fresh (dom rs) = None).
  { intros rs. apply not_elem_of_dom, is_fresh. }
  unfold cpmodel_solve at 1. rewrite Hm. cbn [mbind option_bind sat.Build].
  eexists _, _. split; [reflexivity|]. cbn [heap_models heap_responses].
  split; [apply Hfresh|]. split; [reflexivity|].
  split; [intros r0 Hr0; apply lookup_insert_ne; congruence|].
  split; [apply lookup_insert_eq|].
  intros call h1 t2 Hcall.
  unfold on_model in Hcall. cbn [heap_models heap_responses] in Hcall.
  rewrite Hm in Hcall. cbn [mbind option_bind] in Hcall.
  destruct (call m) as [m1|] eqn:Hm1; [|discriminate].
  cbn [mbind option_bind] in Hcall. simplify_eq.
  unfold cpmodel_solve. cbn [heap_models heap_responses].
  rewrite lookup_insert_eq. cbn [mbind option_bind sat.Build].
  set (rs' := <[fresh (dom (heap_responses h)) := _]> (heap_responses h)).
  assert (Hne : fresh (dom rs') <> fresh (dom (heap_responses h))).
  { intros Heq. pose proof (Hfresh rs') as Hnone.
    rewrite Heq in Hnone. unfold rs' in Hnone.
    rewrite lookup_insert_eq in Hnone. discriminate. }
  eexists _, _, m1. split; [reflexivity|]. cbn [heap_models heap_responses].
  split; [exact Hne|].
  do 3 (split; [first [reflexivity | apply lookup_insert_eq]|]).
  split; [apply lookup_insert_ne; exact Hne|].
  apply lookup_insert_eq.
Qed.

Lemma solve_fresh_independent_witness :
  exists h' r,
    cpmodel_solve Demo.engine Demo.heap 1%positive Demo.one_and_a_half = Some (h', r)
    /\ heap_responses Demo.heap !! r = None
    /\ heap_models h' = heap_models Demo.heap
    /\ heap_responses h' !! r
       = Some {| response := Demo.engine (builder cpmodel_new)
                               (solve_parameters Demo.one_and_a_half);
                 model := builder cpmodel_new |}.
Proof.
  destruct (solve_fresh_independent Demo.engine Demo.heap 1%positive
              Demo.one_and_a_half cpmodel_new)
    as (h' & r & Hcall & Hfresh & Hmodels & _ & Hres & _); [reflexivity|].
  exists h', r. repeat split; assumption.
Defined.

(** * Further properties *)

(** ** Status of a solve *)

(** X1.  With pairwise distinct case labels, the status of a CP-SAT
    result is OPTIMAL, FEASIBLE, INFEASIBLE or MODEL_INVALID exactly when
    the engine's native status is the label of that name, and UNKNOWN
    exactly when it is none of the four. *)
Theorem cpresponse_status_exact :
  forall (cpO cpF cpI cpM : Z) (r : CpSolverResponse),
    cpO <> cpF -> cpO <> cpI -> cpO <> cpM ->
    cpF <> cpI -> cpF <> cpM -> cpI <> cpM ->
    (cpresponse_status cpO cpF cpI cpM r = ORTOOLS_STATUS_OPTIMAL
       <-> status (response r) = cpO)
    /\ (cpresponse_status cpO cpF cpI cpM r = ORTOOLS_STATUS_FEASIBLE
          <-> status (response r) = cpF)
    /\ (cpresponse_status cpO cpF cpI cpM r = ORTOOLS_STATUS_INFEASIBLE
          <-> status (response r) = cpI)
    /\ (cpresponse_status cpO cpF cpI cpM r = ORTOOLS_STATUS_MODEL_INVALID
          <-> status (response r) = cpM)
    /\ (cpresponse_status cpO cpF cpI cpM r = ORTOOLS_STATUS_UNKNOWN
          <-> status (response r) <> cpO /\ status (response r) <> cpF
              /\ status (response r) <> cpI /\ status (response r) <> cpM).
Proof.
  intros cpO cpF cpI cpM r H1 H2 H3 H4 H5 H6.
  unfold cpresponse_status, convert_cp_status.
  destruct (Z.eqb_spec (status (response r)) cpO);
    [|destruct (Z.eqb_spec (status (response r)) cpF);
      [|destruct (Z.eqb_spec (status (response r)) cpI);
        [|destruct (Z.eqb_spec (status (response r)) cpM)]]];
    repeat split; intros; try discriminate; try congruence; try tauto.
Qed.

Lemma cpresponse_status_exact_witness :
  cpresponse_status NativeCodes.CP_OPTIMAL NativeCodes.CP_FEASIBLE
    NativeCodes.CP_INFEASIBLE NativeCodes.CP_MODEL_INVALID Demo.scenario_a
  = ORTOOLS_STATUS_OPTIMAL
  <-> status (response Demo.scenario_a) = NativeCodes.CP_OPTIMAL.
Proof.
  apply (cpresponse_status_exact NativeCodes.CP_OPTIMAL NativeCodes.CP_FEASIBLE
           NativeCodes.CP_INFEASIBLE NativeCodes.CP_MODEL_INVALID Demo.scenario_a);
    vm_compute; discriminate.
Defined.

(** X2.  [mpsolver_solve] keeps both handle tables, installs the solver
    the engine leaves behind, and, with pairwise distinct case labels,
    returns OPTIMAL, FEASIBLE, INFEASIBLE or UNBOUNDED exactly when the
    engine's native status is the label of that name, and ERROR exactly
    when it is none of the four. *)
Theorem mpsolver_solve_exact :
  forall (lpO lpF lpI lpU : Z) (MPSolver_Solve : MPSolver -> MPSolver * Z)
         (s : MpSolver),
    lpO <> lpF -> lpO <> lpI -> lpO <> lpU ->
    lpF <> lpI -> lpF <> lpU -> lpI <> lpU ->
    let r := mpsolver_solve lpO lpF lpI lpU MPSolver_Solve s in
    let native := (MPSolver_Solve (solver s)).2 in
    variables r.1 = variables s
    /\ constraints r.1 = constraints s
    /\ solver r.1 = (MPSolver_Solve (solver s)).1
    /\ (r.2 = ORTOOLS_STATUS_OPTIMAL <-> native = lpO)
    /\ (r.2 = ORTOOLS_STATUS_FEASIBLE <-> native = lpF)
    /\ (r.2 = ORTOOLS_STATUS_INFEASIBLE <-> native = lpI)
    /\ (r.2 = ORTOOLS_STATUS_UNBOUNDED <-> native = lpU)
    /\ (r.2 = ORTOOLS_STATUS_ERROR
          <-> native <> lpO /\ native <> lpF /\ native <> lpI /\ native <> lpU).
Proof.
  intros lpO lpF lpI lpU E s H1 H2 H3 H4 H5 H6. cbv zeta.
  unfold mpsolver_solve. destruct (E (solver s)) as [e native]. cbn [fst snd].
  do 3 (split; [reflexivity|]).
  unfold convert_lp_status.
  destruct (Z.eqb_spec native lpO);
    [|destruct (Z.eqb_spec native lpF);
      [|destruct (Z.eqb_spec native lpI);
        [|destruct (Z.eqb_spec native lpU)]]];
    repeat split; intros; try discriminate; try congruence; try tauto.
Qed.

Lemma mpsolver_solve_exact_witness :
  (mpsolver_solve NativeCodes.LP_OPTIMAL NativeCodes.LP_FEASIBLE
     NativeCodes.LP_INFEASIBLE NativeCodes.LP_UNBOUNDED Demo.lp_engine
     Demo.new_solver).2 = ORTOOLS_STATUS_ERROR
  <-> NativeCodes.LP_NOT_SOLVED <> NativeCodes.LP_OPTIMAL
      /\ NativeCodes.LP_NOT_SOLVED <> NativeCodes.LP_FEASIBLE
      /\ NativeCodes.LP_NOT_SOLVED <> NativeCodes.LP_INFEASIBLE
      /\ NativeCodes.LP_NOT_SOLVED <> NativeCodes.LP_UNBOUNDED.
Proof.
  apply (mpsolver_solve_exact NativeCodes.LP_OPTIMAL NativeCodes.LP_FEASIBLE
           NativeCodes.LP_INFEASIBLE NativeCodes.LP_UNBOUNDED Demo.lp_engine
           Demo.new_solver);
    vm_compute; discriminate.
Defined.

(** X3.  The backend [mpsolver_new] selects is CLP, CBC or SCIP exactly
    for the selector of that engine, and GLOP for every other selector
    value; the solver starts with both handle tables empty. *)
Theorem mpsolver_new_selects :
  forall (name : c_str) (solver_type : Z),
    exists s,
      mpsolver_new name solver_type = Some s
      /\ variables s = [] /\ constraints s = []
      /\ mp_variables (solver s) = [] /\ mp_constraints (solver s) = []
      /\ (mp_problem_type (solver s) = CLP_LINEAR_PROGRAMMING
            <-> solver_type = ORTOOLS_LP_CLP)
      /\ (mp_problem_type (solver s) = CBC_MIXED_INTEGER_PROGRAMMING
            <-> solver_type = ORTOOLS_MIP_CBC)
      /\ (mp_problem_type (solver s) = SCIP_MIXED_INTEGER_PROGRAMMING
            <-> solver_type = ORTOOLS_MIP_SCIP)
      /\ (mp_problem_type (solver s) = GLOP_LINEAR_PROGRAMMING
            <-> solver_type <> ORTOOLS_LP_CLP /\ solver_type <> ORTOOLS_MIP_CBC
                /\ solver_type <> ORTOOLS_MIP_SCIP).
Proof.
  intros name solver_type.
  assert (Hnew : mpsolver_new name solver_type
                 = Some {| solver := MP.make (default "solver"%string name)
                                       (select_problem_type solver_type);
                           variables := []; constraints := [] |}).
  { destruct name; reflexivity. }
  eexists. split; [exact Hnew|]. cbn [solver variables constraints MP.make
    mp_variables mp_constraints mp_problem_type].
  do 4 (split; [reflexivity|]).
  unfold select_problem_type, ORTOOLS_LP_GLOP, ORTOOLS_LP_CLP, ORTOOLS_MIP_CBC,
    ORTOOLS_MIP_SCIP.
  destruct (Z.eqb_spec solver_type 0);
    [|destruct (Z.eqb_spec solver_type 1);
      [|destruct (Z.eqb_spec solver_type 2);
        [|destruct (Z.eqb_spec solver_type 3)]]];
    repeat split; intros; try discriminate; try lia; try tauto.
Qed.

(** ** Handles outside the table *)

Lemma to_size_t_nonneg (idx : Z) :
  0 <= idx -> int32_range idx -> to_size_t idx = Z.to_nat idx.
Proof.
  unfold int32_range, to_size_t. intros H0 Hr. rewrite Z.mod_small; lia.
Qed.

Lemma to_size_t_negative (idx : Z) :
  idx < 0 -> int32_range idx -> 2 ^ 63 <= Z.of_nat (to_size_t idx).
Proof.
  unfold int32_range, to_size_t. intros H0 Hr.
  rewrite <- (Z.mod_add idx 1 (2 ^ 64)) by lia.
  rewrite Z.mod_small by lia. lia.
Qed.

(** Reading a table at a 32-bit index is defined exactly for the indices
    from 0 to the size of the table. *)
Lemma vec_at_defined {A} (v : list A) (idx : Z) :
  int32_range idx -> Z.of_nat (length v) < 2 ^ 63 ->
  is_Some (vec_at v idx) <-> 0 <= idx < Z.of_nat (length v).
Proof.
  intros Hr Hlen. unfold vec_at. rewrite lookup_lt_is_Some.
  destruct (Z_lt_le_dec idx 0) as [Hneg|Hpos].
  - pose proof (to_size_t_negative idx Hneg Hr). lia.
  - rewrite to_size_t_nonneg by assumption. lia.
Qed.

Lemma vec_at_nonneg {A} (v : list A) (idx : Z) :
  0 <= idx -> int32_range idx -> vec_at v idx = v !! Z.to_nat idx.
Proof. intros H0 Hr. unfold vec_at. rewrite to_size_t_nonneg by assumption. reflexivity. Qed.

(** ** Linear expressions, position by position *)

(** The loop of [build_linear_expr] is defined exactly when every
    position it visits exists in both arrays and holds a handle of the
    table. *)
Lemma build_linear_expr_from_defined model var_indices coeffs :
  forall remaining i expr,
    is_Some (build_linear_expr_from model var_indices coeffs i remaining expr)
    <-> forall j, (i <= j < i + remaining)%nat ->
          exists idx c,
            var_indices !! j = Some idx /\ coeffs !! j = Some c
            /\ is_Some (vec_at (vars model) idx).
Proof.
  induction remaining as [|k IH]; intros i expr.
  - simpl. split; [intros _ j Hj; lia | intros _; eauto].
  - cbn [build_linear_expr_from]. split.
    + intros Hsome j Hj.
      destruct (var_indices !! i) as [idx|] eqn:Hidx; [|destruct Hsome; discriminate].
      destruct (coeffs !! i) as [c|] eqn:Hc; [|destruct Hsome; discriminate].
      cbn [mbind option_bind] in Hsome.
      destruct (vec_at (vars model) idx) as [v|] eqn:Hv; [|destruct Hsome; discriminate].
      cbn [mbind option_bind] in Hsome.
      destruct (decide (j = i)) as [->|Hne].
      * exists idx, c. rewrite Hv. eauto.
      * apply (proj1 (IH _ _) Hsome). lia.
    + intros Hall.
      destruct (Hall i) as (idx & c & Hidx & Hc & [v Hv]); [lia|].
      rewrite Hidx, Hc. cbn [mbind option_bind]. rewrite Hv. cbn [mbind option_bind].
      apply (proj2 (IH _ _)). intros j Hj. apply Hall. lia.
Qed.

(** X4.  For 32-bit handles, [build_linear_expr] has a defined result
    exactly when both arrays hold at least [num_vars] entries and each of
    the first [num_vars] handles lies between 0 and the size of the
    variable table; a negative handle, a handle past the table or an
    array that is too short makes it undefined.  Each of the five linear
    calls is defined exactly when [build_linear_expr] is. *)
Theorem build_linear_expr_defined :
  forall (model : CpModelBuilder) (handles coeffs : list Z) (num_vars : nat),
    Forall int32_range handles ->
    Z.of_nat (length (vars model)) < 2 ^ 63 ->
    (is_Some (build_linear_expr model handles coeffs num_vars)
     <-> (num_vars <= length handles)%nat
         /\ (num_vars <= length coeffs)%nat
         /\ forall j hd, (j < num_vars)%nat -> handles !! j = Some hd ->
              0 <= hd < Z.of_nat (length (vars model)))
    /\ (forall rhs,
          (is_Some (cpmodel_add_linear_le model handles coeffs num_vars rhs)
           <-> is_Some (build_linear_expr model handles coeffs num_vars))
          /\ (is_Some (cpmodel_add_linear_ge model handles coeffs num_vars rhs)
              <-> is_Some (build_linear_expr model handles coeffs num_vars))
          /\ (is_Some (cpmodel_add_linear_eq model handles coeffs num_vars rhs)
              <-> is_Some (build_linear_expr model handles coeffs num_vars)))
    /\ (is_Some (cpmodel_minimize model handles coeffs num_vars)
        <-> is_Some (build_linear_expr model handles coeffs num_vars))
    /\ (is_Some (cpmodel_maximize model handles coeffs num_vars)
        <-> is_Some (build_linear_expr model handles coeffs num_vars)).
Proof.
  intros model handles coeffs num_vars Hrange Hlen.
  split; [|unfold cpmodel_add_linear_le, cpmodel_add_linear_ge, cpmodel_add_linear_eq,
             cpmodel_minimize, cpmodel_maximize;
           destruct (build_linear_expr model handles coeffs num_vars);
           cbn [mbind option_bind]; repeat split; intros [? ?]; eauto; discriminate].
  unfold build_linear_expr. rewrite build_linear_expr_from_defined. split.
  - intros Hall. split; [|split].
    + destruct num_vars as [|n]; [lia|].
      destruct (Hall n) as (idx & _ & Hidx & _); [lia|].
      apply lookup_lt_Some in Hidx. lia.
    + destruct num_vars as [|n]; [lia|].
      destruct (Hall n) as (_ & c & _ & Hc & _); [lia|].
      apply lookup_lt_Some in Hc. lia.
    + intros j hd Hj Hhd.
      destruct (Hall j) as (idx & _ & Hidx & _ & Hv); [lia|].
      rewrite Hhd in Hidx. simplify_eq.
      apply vec_at_defined in Hv; [exact Hv | | exact Hlen].
      eapply Forall_lookup_1; eassumption.
  - intros (Hh & Hc & Hvalid) j Hj.
    destruct (lookup_lt_is_Some_2 handles j) as [idx Hidx]; [lia|].
    destruct (lookup_lt_is_Some_2 coeffs j) as [c Hcj]; [lia|].
    exists idx, c. split; [exact Hidx|]. split; [exact Hcj|].
    apply vec_at_defined; [| exact Hlen | apply (Hvalid j); [lia | exact Hidx]].
    eapply Forall_lookup_1; eassumption.
Qed.

Lemma build_linear_expr_defined_witness :
  ~ is_Some (build_linear_expr Demo.three_vars [0; -1] [2; 3] 2).
Proof.
  destruct (build_linear_expr_defined Demo.three_vars [0; -1] [2; 3] 2)
    as [Hiff _].
  - repeat constructor; simpl; lia.
  - simpl. lia.
  - intros Hsome. apply Hiff in Hsome. destruct Hsome as (_ & _ & Hvalid).
    specialize (Hvalid 1%nat (-1) ltac:(lia) eq_refl). lia.
Defined.

(** The terms the loop of [build_linear_expr] appends, position by
    position. *)
Lemma build_linear_expr_from_terms model var_indices coeffs :
  forall remaining i expr,
    constant expr = 0 ->
    (forall j, (i <= j < i + remaining)%nat ->
       exists idx c v,
         var_indices !! j = Some idx /\ coeffs !! j = Some c
         /\ vec_at (vars model) idx = Some v /\ int64_range c) ->
    exists ts,
      build_linear_expr_from model var_indices coeffs i remaining expr
      = Some {| terms := terms expr ++ ts; constant := 0 |}
      /\ length ts = remaining
      /\ forall k idx c,
           (k < remaining)%nat ->
           var_indices !! (i + k)%nat = Some idx -> coeffs !! (i + k)%nat = Some c ->
           exists v, vec_at (vars model) idx = Some v /\ ts !! k = Some (v, c).
Proof.
  induction remaining as [|n IH]; intros i expr Hconst Hall.
  - exists []. cbn [build_linear_expr_from]. rewrite app_nil_r.
    split; [destruct expr; simpl in *; congruence|].
    split; [reflexivity|]. intros k idx c Hk. lia.
  - destruct (Hall i) as (idx & c & v & Hidx & Hc & Hv & Hcr); [lia|].
    cbn [build_linear_expr_from]. rewrite Hidx, Hc. cbn [mbind option_bind].
    rewrite Hv. cbn [mbind option_bind].
    rewrite add_assign_term by assumption.
    destruct (IH (S i) {| terms := terms expr ++ [(v, c)]; constant := constant expr |})
      as (ts & Hrun & Hlen & Hts); [exact Hconst | intros j Hj; apply Hall; lia |].
    exists ((v, c) :: ts). rewrite Hrun. cbn [terms]. rewrite <- app_assoc.
    split; [reflexivity|]. split; [simpl; lia|].
    intros [|k] idx' c' Hk Hidx' Hc'.
    + rewrite Nat.add_0_r in Hidx', Hc'. simplify_eq. exists v. split; [exact Hv|reflexivity].
    + replace (i + S k)%nat with (S i + k)%nat in Hidx', Hc' by lia.
      apply (Hts k idx' c'); [lia | assumption | assumption].
Qed.

(** X5.  [build_linear_expr] reads the first [num_vars] entries of the
    two arrays and nothing after them: when those handles are valid, the
    expression has the constant 0 and exactly [num_vars] terms, the term
    at position [k] being the variable at [handles[k]] with the
    coefficient [coeffs[k]], in the order of the arrays and with zero
    coefficients and repeated variables kept; longer arrays give the same
    expression as their prefixes of length [num_vars]. *)
Theorem build_linear_expr_terms :
  forall (model : CpModelBuilder) (handles coeffs : list Z) (num_vars : nat),
    (num_vars <= length handles)%nat ->
    (num_vars <= length coeffs)%nat ->
    Forall (valid_handle (vars model)) (take num_vars handles) ->
    Forall int64_range (take num_vars coeffs) ->
    exists ts,
      build_linear_expr model handles coeffs num_vars
      = Some {| terms := ts; constant := 0 |}
      /\ length ts = num_vars
      /\ (forall k hd c,
            (k < num_vars)%nat -> handles !! k = Some hd -> coeffs !! k = Some c ->
            exists v, vec_at (vars model) hd = Some v /\ ts !! k = Some (v, c))
      /\ build_linear_expr model (take num_vars handles) (take num_vars coeffs) num_vars
         = Some {| terms := ts; constant := 0 |}.
Proof.
  intros model handles coeffs num_vars Hh Hc Hvalid Hrange.
  assert (Hpos : forall hs cs : list Z,
            (forall j, (j < num_vars)%nat -> hs !! j = handles !! j) ->
            (forall j, (j < num_vars)%nat -> cs !! j = coeffs !! j) ->
            forall j, (0 <= j < 0 + num_vars)%nat ->
              exists idx c v,
                hs !! j = Some idx /\ cs !! j = Some c
                /\ vec_at (vars model) idx = Some v /\ int64_range c).
  { intros hs cs Hhs Hcs j Hj.
    destruct (lookup_lt_is_Some_2 handles j) as [idx Hidx]; [lia|].
    destruct (lookup_lt_is_Some_2 coeffs j) as [c Hcj]; [lia|].
    assert (Hv : valid_handle (vars model) idx).
    { apply (Forall_lookup_1 _ _ j idx Hvalid). rewrite lookup_take_lt by lia. exact Hidx. }
    assert (Hcr : int64_range c).
    { apply (Forall_lookup_1 _ _ j c Hrange). rewrite lookup_take_lt by lia. exact Hcj. }
    destruct (vec_at_valid _ _ Hv) as [v Hvv].
    exists idx, c, v. rewrite Hhs, Hcs by lia. eauto. }
  destruct (build_linear_expr_from_terms model handles coeffs num_vars 0%nat
              LinearExpr_empty eq_refl (Hpos handles coeffs (fun _ _ => eq_refl)
                                          (fun _ _ => eq_refl)))
    as (ts & Hrun & Hlen & Hts).
  destruct (build_linear_expr_from_terms model (take num_vars handles)
              (take num_vars coeffs) num_vars 0%nat LinearExpr_empty eq_refl
              (Hpos _ _ (fun j Hj => lookup_take_lt handles num_vars j Hj)
                        (fun j Hj => lookup_take_lt coeffs num_vars j Hj)))
    as (ts' & Hrun' & Hlen' & Hts').
  exists ts. unfold build_linear_expr. rewrite Hrun, Hrun'. cbn [terms app LinearExpr_empty].
  split; [reflexivity|]. split; [exact Hlen|]. split; [exact Hts|].
  do 2 f_equal. apply list_eq. intros k.
  destruct (decide (k < num_vars)%nat) as [Hk|Hk].
  - destruct (lookup_lt_is_Some_2 handles k) as [idx Hidx]; [lia|].
    destruct (lookup_lt_is_Some_2 coeffs k) as [c Hcj]; [lia|].
    destruct (Hts k idx c Hk Hidx Hcj) as (v & Hv & ->).
    destruct (Hts' k idx c Hk) as (v' & Hv' & ->).
    + simpl. rewrite lookup_take_lt by lia. exact Hidx.
    + simpl. rewrite lookup_take_lt by lia. exact Hcj.
    + congruence.
  - rewrite !lookup_ge_None_2 by lia. reflexivity.
Qed.

Lemma build_linear_expr_terms_witness :
  exists ts,
    build_linear_expr Demo.three_vars [0; 1; 0; 7] [2; 0; 5] 3
    = Some {| terms := ts; constant := 0 |}
    /\ length ts = 3%nat.
Proof.
  destruct (build_linear_expr_terms Demo.three_vars [0; 1; 0; 7] [2; 0; 5] 3)
    as (ts & Hrun & Hlen & _).
  - simpl. lia.
  - simpl. lia.
  - repeat constructor; simpl; lia.
  - repeat constructor; simpl; lia.
  - exists ts. split; assumption.
Defined.

(** ** All-different constraints *)

Lemma collect_vars_from_defined model var_indices :
  forall remaining i acc,
    is_Some (collect_vars_from model var_indices i remaining acc)
    <-> forall j, (i <= j < i + remaining)%nat ->
          exists idx, var_indices !! j = Some idx /\ is_Some (vec_at (vars model) idx).
Proof.
  induction remaining as [|k IH]; intros i acc.
  - simpl. split; [intros _ j Hj; lia | intros _; eauto].
  - cbn [collect_vars_from]. split.
    + intros Hsome j Hj.
      destruct (var_indices !! i) as [idx|] eqn:Hidx; [|destruct Hsome; discriminate].
      cbn [mbind option_bind] in Hsome.
      destruct (vec_at (vars model) idx) as [v|] eqn:Hv; [|destruct Hsome; discriminate].
      cbn [mbind option_bind] in Hsome.
      destruct (decide (j = i)) as [->|Hne].
      * exists idx. rewrite Hv. eauto.
      * apply (proj1 (IH _ _) Hsome). lia.
    + intros Hall.
      destruct (Hall i) as (idx & Hidx & [v Hv]); [lia|].
      rewrite Hidx. cbn [mbind option_bind]. rewrite Hv. cbn [mbind option_bind].
      apply (proj2 (IH _ _)). intros j Hj. apply Hall. lia.
Qed.

Lemma collect_vars_from_result model var_indices :
  forall remaining i acc r,
    collect_vars_from model var_indices i remaining acc = Some r ->
    exists vs,
      r = acc ++ vs /\ length vs = remaining
      /\ forall k idx, (k < remaining)%nat -> var_indices !! (i + k)%nat = Some idx ->
           vs !! k = vec_at (vars model) idx.
Proof.
  induction remaining as [|n IH]; intros i acc r Hrun; cbn [collect_vars_from] in Hrun.
  - simplify_eq. exists []. rewrite app_nil_r. split; [reflexivity|].
    split; [reflexivity|]. intros k idx Hk. lia.
  - destruct (var_indices !! i) as [idx|] eqn:Hidx; [|discriminate].
    cbn [mbind option_bind] in Hrun.
    destruct (vec_at (vars model) idx) as [v|] eqn:Hv; [|discriminate].
    cbn [mbind option_bind] in Hrun.
    destruct (IH _ _ _ Hrun) as (vs & -> & Hlen & Hvs).
    exists (v :: vs). rewrite <- app_assoc. split; [reflexivity|].
    split; [simpl; lia|].
    intros [|k] idx' Hk Hidx'.
    + rewrite Nat.add_0_r in Hidx'. simplify_eq. simpl. congruence.
    + replace (i + S k)%nat with (S i + k)%nat in Hidx' by lia.
      simpl. apply Hvs; [lia | exact Hidx'].
Qed.

(** X6.  For 32-bit handles, [cpmodel_add_all_different] is defined
    exactly when the array holds at least [num_vars] entries and each of
    the first [num_vars] handles lies in the variable table.  When
    defined it appends one all-different constraint that lists, in the
    order of the array and with repetitions kept, the variables at those
    handles (none at all for [num_vars = 0]), and leaves the handle
    table, the variables, the earlier constraints and the objective as
    they were. *)
Theorem add_all_different_spec :
  forall (model : CpModelBuilder) (handles : list Z) (num_vars : nat),
    Forall int32_range handles ->
    Z.of_nat (length (vars model)) < 2 ^ 63 ->
    (is_Some (cpmodel_add_all_different model handles num_vars)
     <-> (num_vars <= length handles)%nat
         /\ forall j hd, (j < num_vars)%nat -> handles !! j = Some hd ->
              0 <= hd < Z.of_nat (length (vars model)))
    /\ (forall model',
          cpmodel_add_all_different model handles num_vars = Some model' ->
          vars model' = vars model
          /\ proto_variables (builder model') = proto_variables (builder model)
          /\ proto_objective (builder model') = proto_objective (builder model)
          /\ exists vs,
               proto_constraints (builder model')
               = proto_constraints (builder model) ++ [AllDifferentConstraint vs]
               /\ length vs = num_vars
               /\ forall k hd, (k < num_vars)%nat -> handles !! k = Some hd ->
                    vs !! k = vec_at (vars model) hd).
Proof.
  intros model handles num_vars Hrange Hlen. split.
  - unfold cpmodel_add_all_different.
    assert (Hiff : is_Some (vs ← collect_vars_from model handles 0 num_vars [];
                            Some (with_builder model
                                    (sat.AddAllDifferent (builder model) vs)))
                   <-> is_Some (collect_vars_from model handles 0 num_vars [])).
    { destruct (collect_vars_from model handles 0 num_vars []);
        cbn [mbind option_bind]; split; intros [? ?]; eauto; discriminate. }
    rewrite Hiff, collect_vars_from_defined. split.
    + intros Hall. split.
      * destruct num_vars as [|n]; [lia|].
        destruct (Hall n) as (idx & Hidx & _); [lia|].
        apply lookup_lt_Some in Hidx. lia.
      * intros j hd Hj Hhd.
        destruct (Hall j) as (idx & Hidx & Hv); [lia|].
        rewrite Hhd in Hidx. simplify_eq.
        apply vec_at_defined in Hv; [exact Hv | | exact Hlen].
        apply (Forall_lookup_1 _ _ j idx Hrange Hhd).
    + intros (Hh & Hvalid) j Hj.
      destruct (lookup_lt_is_Some_2 handles j) as [idx Hidx]; [lia|].
      exists idx. split; [exact Hidx|].
      apply vec_at_defined; [| exact Hlen | apply (Hvalid j); [lia | exact Hidx]].
      apply (Forall_lookup_1 _ _ j idx Hrange Hidx).
  - intros model' Hcall. unfold cpmodel_add_all_different in Hcall.
    destruct (collect_vars_from model handles 0 num_vars []) as [r|] eqn:Hrun;
      [|discriminate].
    cbn [mbind option_bind] in Hcall. simplify_eq.
    destruct (collect_vars_from_result _ _ _ _ _ _ Hrun) as (vs & -> & Hvs & Hk).
    do 3 (split; [reflexivity|]). exists vs. split; [reflexivity|].
    split; [exact Hvs|]. exact Hk.
Qed.

Lemma add_all_different_spec_witness :
  is_Some (cpmodel_add_all_different Demo.three_vars [2; 0; 2] 3).
Proof.
  destruct (add_all_different_spec Demo.three_vars [2; 0; 2] 3) as [Hiff _].
  - repeat constructor; simpl; lia.
  - simpl. lia.
  - apply Hiff. split; [simpl; lia|].
    intros [|[|[|j]]] hd Hj Hhd; simpl in Hhd; simplify_eq; simpl; lia.
Defined.

(** ** What a returned handle refers to *)

Lemma static_cast_int32_valid {A} (table : list A) (x : A) :
  Z.of_nat (length table) < 2 ^ 31 ->
  vec_at (table ++ [x]) (static_cast_int32 (length table)) = Some x
  /\ 0 <= static_cast_int32 (length table) < Z.of_nat (length (table ++ [x]))
  /\ int32_range (static_cast_int32 (length table)).
Proof.
  intros Hlen. rewrite static_cast_int32_small by exact Hlen.
  assert (Hr : int32_range (Z.of_nat (length table))) by (unfold int32_range; lia).
  split; [|split; [rewrite length_app; simpl; lia | exact Hr]].
  rewrite vec_at_nonneg by (try exact Hr; lia).
  rewrite Nat2Z.id. apply list_lookup_middle. reflexivity.
Qed.

Lemma vec_at_app_l {A} (table : list A) (x : A) (hd : Z) :
  0 <= hd < Z.of_nat (length table) -> int32_range hd ->
  vec_at (table ++ [x]) hd = vec_at table hd.
Proof.
  intros Hhd Hr. rewrite !vec_at_nonneg by (try exact Hr; lia).
  apply lookup_app_l. lia.
Qed.

Lemma with_optional_name_result (b : CpModelProto) (d : Domain) (name : c_str) :
  exists b',
    with_optional_name (sat.NewIntVar b d).1 (sat.NewIntVar b d).2 name = Some b'
    /\ proto_variables b'
       = proto_variables b
         ++ [{| variable_name := given_name name; variable_domain := d |}]
    /\ proto_constraints b' = proto_constraints b
    /\ proto_objective b' = proto_objective b.
Proof.
  destruct name as [s|]; [|eexists; split; [reflexivity|]; repeat split].
  unfold with_optional_name, name_and_name0, read_c_str. cbn [mbind option_bind].
  destruct (String.eqb_spec s EmptyString) as [->|Hne]; cbn [negb].
  - eexists; split; [reflexivity|]; repeat split.
  - eexists; split; [reflexivity|].
    cbn [sat.WithName sat.NewIntVar fst snd index proto_variables
         proto_constraints proto_objective].
    split; [|split; reflexivity].
    rewrite <- (Nat.add_0_r (length (proto_variables b))) at 1.
    rewrite alter_app_r. reflexivity.
Qed.

(** X7.  When the table of a CP-SAT builder holds fewer than [2^31]
    variables, the handle a creation call returns is valid for the new
    builder and refers to the variable the call has just appended to the
    compiled model, with the requested domain ([0,1] for a Boolean) and
    the given name; every earlier handle still refers to the variable it
    referred to, and the earlier variables, the constraints and the
    objective are untouched. *)
Theorem cpmodel_new_var_lookup :
  forall (model : CpModelBuilder) (name : c_str),
    Z.of_nat (length (vars model)) < 2 ^ 31 ->
    forall (d : Domain) (r : option (CpModelBuilder * Z)),
      (exists lb ub, d = {| domain_lb := lb; domain_ub := ub |}
                     /\ r = cpmodel_new_int_var model lb ub name)
      \/ (d = {| domain_lb := 0; domain_ub := 1 |}
          /\ r = cpmodel_new_bool_var model name) ->
      exists model' idx v,
        r = Some (model', idx)
        /\ valid_handle (vars model') idx
        /\ vec_at (vars model') idx = Some v
        /\ index v = length (proto_variables (builder model))
        /\ proto_variables (builder model')
           = proto_variables (builder model)
             ++ [{| variable_name := given_name name; variable_domain := d |}]
        /\ proto_constraints (builder model') = proto_constraints (builder model)
        /\ proto_objective (builder model') = proto_objective (builder model)
        /\ forall hd, valid_handle (vars model) hd ->
             valid_handle (vars model') hd
             /\ vec_at (vars model') hd = vec_at (vars model) hd.
Proof.
  intros model name Hlen d r Hr.
  assert (Hcall : r = (let '(b, var) := sat.NewIntVar (builder model) d in
                       b' ← with_optional_name b var name;
                       Some ({| builder := b'; vars := vars model ++ [var] |},
                             static_cast_int32 (length (vars model))))).
  { destruct Hr as [(lb & ub & -> & ->) | [-> ->]]; reflexivity. }
  clear Hr. subst r.
  destruct (with_optional_name_result (builder model) d name)
    as (b' & Hname & Hvars & Hcs & Hobj).
  cbn [sat.NewIntVar fst snd] in Hname |- *. rewrite Hname. cbn [mbind option_bind].
  destruct (static_cast_int32_valid (vars model)
              {| index := length (proto_variables (builder model)) |} Hlen)
    as (Hat & Hin & Hr32).
  eexists _, _, _. split; [reflexivity|]. cbn [vars builder].
  split; [split; assumption|]. split; [exact Hat|]. split; [reflexivity|].
  split; [exact Hvars|]. split; [exact Hcs|]. split; [exact Hobj|].
  intros hd [Hhd Hhr]. split.
  - split; [rewrite length_app; simpl; lia | exact Hhr].
  - apply vec_at_app_l; assumption.
Qed.

Lemma cpmodel_new_var_lookup_witness :
  exists model' idx v,
    cpmodel_new_int_var Demo.three_vars (-5) 5 (Some "z"%string) = Some (model', idx)
    /\ vec_at (vars model') idx = Some v
    /\ proto_variables (builder model') !! index v
       = Some {| variable_name := "z";
                 variable_domain := {| domain_lb := -5; domain_ub := 5 |} |}.
Proof.
  destruct (cpmodel_new_var_lookup Demo.three_vars (Some "z"%string)
              ltac:(simpl; lia) {| domain_lb := -5; domain_ub := 5 |}
              (cpmodel_new_int_var Demo.three_vars (-5) 5 (Some "z"%string)))
    as (model' & idx & v & Hr & _ & Hat & Hidx & Hvars & _).
  - left. exists (-5), 5. split; reflexivity.
  - exists model', idx, v. split; [exact Hr|]. split; [exact Hat|].
    rewrite Hvars, Hidx. apply list_lookup_middle. reflexivity.
Defined.

(** ** Linear solver: handles and what they refer to *)

(** X8.  When the variable table of a linear solver holds fewer than
    [2^31] entries, the handle returned by [mpsolver_num_var],
    [mpsolver_int_var] or [mpsolver_bool_var] refers to the variable the
    call has just appended to the engine: continuous for the first,
    integer for the other two, with the given bounds ([0,1] for a
    Boolean) and the given name, the empty string for a null one.  Rows,
    earlier variables and earlier handles are untouched. *)
Theorem mpsolver_new_var_lookup :
  forall (s : MpSolver) (name : c_str),
    Z.of_nat (length (variables s)) < 2 ^ 31 ->
    forall (lb ub : double) (integer : bool) (r : option (MpSolver * Z)),
      (integer = false /\ r = mpsolver_num_var s lb ub name)
      \/ (integer = true /\ r = mpsolver_int_var s lb ub name)
      \/ (integer = true /\ lb = double_zero /\ ub = double_one
          /\ r = mpsolver_bool_var s name) ->
      exists s' idx var,
        r = Some (s', idx)
        /\ 0 <= idx < Z.of_nat (length (variables s'))
        /\ vec_at (variables s') idx = Some var
        /\ var = length (mp_variables (solver s))
        /\ mp_variables (solver s')
           = mp_variables (solver s)
             ++ [{| mpvar_lb := lb; mpvar_ub := ub; mpvar_integer := integer;
                    mpvar_name := given_name name |}]
        /\ mp_constraints (solver s') = mp_constraints (solver s)
        /\ constraints s' = constraints s
        /\ forall hd, 0 <= hd < Z.of_nat (length (variables s)) -> int32_range hd ->
             vec_at (variables s') hd = vec_at (variables s) hd.
Proof.
  intros s name Hlen lb ub integer r Hr.
  assert (Hcall : r = Some ({| solver := (MP.MakeVar (solver s) lb ub integer
                                            (given_name name)).1;
                               variables := variables s
                                            ++ [length (mp_variables (solver s))];
                               constraints := constraints s |},
                            static_cast_int32 (length (variables s)))).
  { destruct Hr as [[-> ->] | [[-> ->] | (-> & -> & -> & ->)]];
      destruct name; reflexivity. }
  clear Hr. subst r.
  destruct (static_cast_int32_valid (variables s) (length (mp_variables (solver s))) Hlen)
    as (Hat & Hin & Hr32).
  eexists _, _, _. split; [reflexivity|]. cbn [variables constraints solver].
  split; [exact Hin|]. split; [exact Hat|]. split; [reflexivity|].
  do 3 (split; [reflexivity|]).
  intros hd Hhd Hhr. apply vec_at_app_l; assumption.
Qed.

Lemma mpsolver_new_var_lookup_witness :
  exists s' idx var,
    mpsolver_bool_var Demo.new_solver None = Some (s', idx)
    /\ vec_at (variables s') idx = Some var
    /\ mp_variables (solver s') !! var
       = Some {| mpvar_lb := double_zero; mpvar_ub := double_one;
                 mpvar_integer := true; mpvar_name := EmptyString |}.
Proof.
  destruct (mpsolver_new_var_lookup Demo.new_solver None ltac:(simpl; lia)
              double_zero double_one true (mpsolver_bool_var Demo.new_solver None))
    as (s' & idx & var & Hr & _ & Hat & Hvar & Hvars & _).
  - right. right. repeat split; reflexivity.
  - exists s', idx, var. split; [exact Hr|]. split; [exact Hat|].
    rewrite Hvars, Hvar. apply list_lookup_middle. reflexivity.
Defined.

(** X9.  When the row table of a linear solver holds fewer than [2^31]
    entries, the handle [mpsolver_add_constraint] returns refers to the
    row the call has just appended to the engine, with the given bounds
    and name (the empty string for a null one) and no coefficient set;
    setting a coefficient of that row for any valid variable handle is
    then defined.  Variables, earlier rows and earlier row handles are
    untouched. *)
Theorem mpsolver_add_constraint_lookup :
  forall (s : MpSolver) (lb ub : double) (name : c_str),
    Z.of_nat (length (constraints s)) < 2 ^ 31 ->
    exists s' idx row,
      mpsolver_add_constraint s lb ub name = Some (s', idx)
      /\ 0 <= idx < Z.of_nat (length (constraints s'))
      /\ vec_at (constraints s') idx = Some row
      /\ row = length (mp_constraints (solver s))
      /\ mp_constraints (solver s')
         = mp_constraints (solver s)
           ++ [{| row_lb := lb; row_ub := ub; row_name := given_name name;
                  row_coefficients := ∅ |}]
      /\ mp_variables (solver s') = mp_variables (solver s)
      /\ variables s' = variables s
      /\ (forall hd, 0 <= hd < Z.of_nat (length (constraints s)) -> int32_range hd ->
            vec_at (constraints s') hd = vec_at (constraints s) hd)
      /\ (forall var_idx coeff,
            is_Some (vec_at (variables s) var_idx) ->
            is_Some (mpsolver_set_constraint_coeff s' idx var_idx coeff)).
Proof.
  intros s lb ub name Hlen.
  assert (Hcall : mpsolver_add_constraint s lb ub name
                  = Some ({| solver := (MP.MakeRowConstraint (solver s) lb ub
                                          (given_name name)).1;
                             variables := variables s;
                             constraints := constraints s
                                            ++ [length (mp_constraints (solver s))] |},
                          static_cast_int32 (length (constraints s)))).
  { destruct name; reflexivity. }
  destruct (static_cast_int32_valid (constraints s)
              (length (mp_constraints (solver s))) Hlen) as (Hat & Hin & Hr32).
  eexists _, _, _. split; [exact Hcall|]. cbn [variables constraints solver].
  split; [exact Hin|]. split; [exact Hat|]. split; [reflexivity|].
  do 3 (split; [reflexivity|]).
  split; [intros hd Hhd Hhr; apply vec_at_app_l; assumption|].
  intros var_idx coeff [var Hvar].
  unfold mpsolver_set_constraint_coeff. cbn [variables constraints solver].
  rewrite Hat. cbn [mbind option_bind]. rewrite Hvar. cbn [mbind option_bind]. eauto.
Qed.

Lemma mpsolver_add_constraint_lookup_witness :
  exists s' idx,
    mpsolver_add_constraint Demo.new_solver double_zero double_one None
    = Some (s', idx)
    /\ 0 <= idx < Z.of_nat (length (constraints s')).
Proof.
  destruct (mpsolver_add_constraint_lookup Demo.new_solver double_zero double_one
              None ltac:(simpl; lia))
    as (s' & idx & row & Hr & Hin & _).
  exists s', idx. split; assumption.
Defined.

Section LinearBounds.

Variable MPVariable_solution_value : MPSolver -> nat -> double.

(** X10.  For 32-bit handles, [mpsolver_set_constraint_coeff] is defined
    exactly when both handles lie in their tables,
    [mpsolver_set_objective_coeff] and [mpsolver_var_value] exactly when
    the variable handle lies in its table; the two setters change
    neither handle table nor the number of variables and rows of the
    engine, and [mpsolver_var_value] reads the engine variable the handle
    refers to. *)
Theorem mpsolver_handles_checked :
  forall (s : MpSolver) (constraint_idx var_idx : Z) (coeff : double),
    int32_range constraint_idx -> int32_range var_idx ->
    Z.of_nat (length (constraints s)) < 2 ^ 63 ->
    Z.of_nat (length (variables s)) < 2 ^ 63 ->
    (is_Some (mpsolver_set_constraint_coeff s constraint_idx var_idx coeff)
     <-> 0 <= constraint_idx < Z.of_nat (length (constraints s))
         /\ 0 <= var_idx < Z.of_nat (length (variables s)))
    /\ (is_Some (mpsolver_set_objective_coeff s var_idx coeff)
        <-> 0 <= var_idx < Z.of_nat (length (variables s)))
    /\ (is_Some (mpsolver_var_value MPVariable_solution_value s var_idx)
        <-> 0 <= var_idx < Z.of_nat (length (variables s)))
    /\ (forall v, mpsolver_var_value MPVariable_solution_value s var_idx = Some v ->
          exists var, variables s !! Z.to_nat var_idx = Some var
                      /\ v = MPVariable_solution_value (solver s) var)
    /\ (forall s',
          mpsolver_set_constraint_coeff s constraint_idx var_idx coeff = Some s'
          \/ mpsolver_set_objective_coeff s var_idx coeff = Some s' ->
          variables s' = variables s /\ constraints s' = constraints s
          /\ length (mp_variables (solver s')) = length (mp_variables (solver s))
          /\ length (mp_constraints (solver s')) = length (mp_constraints (solver s))).
Proof.
  intros s ci vi coeff Hci Hvi Hlc Hlv.
  pose proof (vec_at_defined (constraints s) ci Hci Hlc) as Hc.
  pose proof (vec_at_defined (variables s) vi Hvi Hlv) as Hv.
  unfold mpsolver_set_constraint_coeff, mpsolver_set_objective_coeff,
    mpsolver_var_value.
  split; [|split; [|split; [|split]]].
  - rewrite <- Hc, <- Hv.
    destruct (vec_at (constraints s) ci), (vec_at (variables s) vi);
      cbn [mbind option_bind]; split;
      try (intros [[? ?] [? ?]]); try (intros [? ?]); try discriminate; eauto.
  - rewrite <- Hv. destruct (vec_at (variables s) vi); cbn [mbind option_bind];
      split; intros [? ?]; try discriminate; eauto.
  - rewrite <- Hv. destruct (vec_at (variables s) vi); cbn [mbind option_bind];
      split; intros [? ?]; try discriminate; eauto.
  - intros v Hval.
    destruct (vec_at (variables s) vi) as [var|] eqn:Hvar; [|discriminate].
    cbn [mbind option_bind] in Hval. simplify_eq.
    exists var. split; [|reflexivity].
    assert (0 <= vi < Z.of_nat (length (variables s))) as Hin by (apply Hv; eauto).
    rewrite <- Hvar. symmetry. apply vec_at_nonneg; [lia | exact Hvi].
  - intros s' [Hset | Hset].
    + destruct (vec_at (constraints s) ci) as [row|]; [|discriminate].
      destruct (vec_at (variables s) vi) as [var|]; [|discriminate].
      cbn [mbind option_bind] in Hset. simplify_eq.
      cbn [with_solver variables constraints solver MP.SetCoefficient
           mp_variables mp_constraints].
      rewrite length_alter. repeat split.
    + destruct (vec_at (variables s) vi) as [var|]; [|discriminate].
      cbn [mbind option_bind] in Hset. simplify_eq. repeat split.
Qed.

End LinearBounds.

Lemma mpsolver_handles_checked_witness :
  is_Some (mpsolver_set_objective_coeff Demo.new_solver 0 double_one)
  <-> 0 <= 0 < Z.of_nat (length (variables Demo.new_solver)).
Proof.
  destruct (mpsolver_handles_checked (fun _ _ => double_zero)
              Demo.new_solver 0 0 double_one)
    as (_ & Hobj & _).
  - unfold int32_range. lia.
  - unfold int32_range. lia.
  - simpl. lia.
  - simpl. lia.
  - exact Hobj.
Defined.

(** ** Reading a CP-SAT response *)

(** X11.  [cpresponse_objective_value] truncates the objective field
    toward zero: it is undefined when the field is a NaN or an infinity;
    otherwise a returned value is a 64-bit integer of the sign of the
    field, equal to the field when the field is an integer, and less
    than one away from it in magnitude when it is not. *)
Theorem objective_value_truncates :
  forall (r : CpSolverResponse),
    match objective_value (response r) with
    | S754_nan | S754_infinity _ => cpresponse_objective_value r = None
    | S754_zero _ => cpresponse_objective_value r = Some 0
    | S754_finite s m e =>
        forall z, cpresponse_objective_value r = Some z ->
          int64_range z
          /\ (if s then z <= 0 else 0 <= z)
          /\ (0 <= e -> Z.abs z = Z.pos m * 2 ^ e)
          /\ (e < 0 -> Z.abs z * 2 ^ (- e) <= Z.pos m < (Z.abs z + 1) * 2 ^ (- e))
    end.
Proof.
  intros r. unfold cpresponse_objective_value, static_cast_int64.
  destruct (objective_value (response r)) as [s | s | | s m e]; try reflexivity.
  cbn [double_trunc mbind option_bind]. intros z Hz.
  destruct ((- 2 ^ 63 <=? _) && (_ <? 2 ^ 63)) eqn:Hrange; [|discriminate].
  simplify_eq. apply andb_prop in Hrange as [Hlo Hhi].
  apply Z.leb_le in Hlo. apply Z.ltb_lt in Hhi.
  split; [unfold int64_range; lia|].
  set (a := if 0 <=? e then Z.pos m * 2 ^ e else Z.pos m / 2 ^ (- e)) in *.
  assert (Ha : 0 <= a).
  { unfold a. destruct (0 <=? e) eqn:He.
    - apply Z.leb_le in He. pose proof (Z.pow_pos_nonneg 2 e). nia.
    - apply Z.leb_gt in He. apply Z.div_pos; [lia|]. apply Z.pow_pos_nonneg; lia. }
  assert (Habs : Z.abs (if s then - a else a) = a) by (destruct s; lia).
  rewrite Habs.
  split; [destruct s; lia|]. split.
  - intros He. unfold a. apply Z.leb_le in He. rewrite He. reflexivity.
  - intros He. unfold a. apply Z.leb_gt in He. rewrite He.
    assert (Hp : 0 < 2 ^ (- e)) by (apply Z.pow_pos_nonneg; lia).
    pose proof (Z.mul_div_le (Z.pos m) (2 ^ (- e)) Hp).
    pose proof (Z.mul_succ_div_gt (Z.pos m) (2 ^ (- e)) Hp). lia.
Qed.

Lemma objective_value_truncates_witness :
  cpresponse_objective_value
    (with_objective_value Demo.scenario_a minus_two_and_three_quarters) = Some (-2)
  /\ int64_range (-2) /\ -2 <= 0.
Proof.
  assert (Hcall : cpresponse_objective_value
                    (with_objective_value Demo.scenario_a minus_two_and_three_quarters)
                  = Some (-2)) by (vm_compute; reflexivity).
  split; [exact Hcall|].
  pose proof (objective_value_truncates
                (with_objective_value Demo.scenario_a minus_two_and_three_quarters))
    as Htrunc.
  cbn [with_objective_value response objective_value minus_two_and_three_quarters]
    in Htrunc.
  destruct (Htrunc (-2) Hcall) as (Hr & Hs & _). split; assumption.
Defined.

(** X12.  For a 32-bit handle, [cpresponse_value] is defined exactly
    when the handle lies between 0 and the number of values of the
    reported assignment, and it then returns the value at that position;
    on a response without an assignment no handle can be read. *)
Theorem cpresponse_value_checked :
  forall (r : CpSolverResponse) (var_index : Z),
    int32_range var_index ->
    Z.of_nat (length (solution (response r))) < 2 ^ 63 ->
    (is_Some (cpresponse_value r var_index)
     <-> 0 <= var_index < Z.of_nat (length (solution (response r))))
    /\ (forall v, cpresponse_value r var_index = Some v ->
          solution (response r) !! Z.to_nat var_index = Some v)
    /\ (solution (response r) = [] -> cpresponse_value r var_index = None).
Proof.
  intros r idx Hidx Hlen. unfold cpresponse_value.
  pose proof (vec_at_defined (solution (response r)) idx Hidx Hlen) as Hdef.
  split; [exact Hdef|]. split.
  - intros v Hv.
    assert (0 <= idx < Z.of_nat (length (solution (response r)))) as Hin
      by (apply Hdef; eauto).
    rewrite <- Hv. symmetry. apply vec_at_nonneg; [lia | exact Hidx].
  - intros Hnil. rewrite Hnil in Hdef |- *.
    destruct (vec_at [] idx) eqn:E; [|reflexivity].
    assert (0 <= idx < Z.of_nat (length (@nil Z))) by (apply Hdef; eauto).
    simpl in *. lia.
Qed.

Lemma cpresponse_value_checked_witness :
  cpresponse_value Demo.scenario_a 0 = Some 1
  /\ ~ is_Some (cpresponse_value Demo.scenario_a (-1)).
Proof.
  split; [reflexivity|].
  destruct (cpresponse_value_checked Demo.scenario_a (-1)) as [Hdef _].
  - unfold int32_range. lia.
  - simpl. lia.
  - intros Hsome. apply Hdef in Hsome. lia.
Defined.

(** ** Sequences of calls: what they leave alone *)

Section Frames.

Variable SolveWithParameters : CpModelProto -> SatParameters -> sat_CpSolverResponse.

Lemma fresh_response_unused (rs : gmap positive CpSolverResponse) :
  rs !! fresh (dom rs) = None.
Proof. apply not_elem_of_dom, is_fresh. Qed.

(** One call changes the builder it is made on at most, keeps every
    result there is, and allocates a result exactly when it is a solve. *)
Lemma cp_step_frame h l c h' r :
  cp_step SolveWithParameters h l c = Some (h', r) ->
  (forall l', l' <> l -> heap_models h' !! l' = heap_models h !! l')
  /\ (forall a x, heap_responses h !! a = Some x -> heap_responses h' !! a = Some x)
  /\ size (heap_responses h')
     = (size (heap_responses h) + if is_solve c then 1 else 0)%nat.
Proof.
  intros Hstep.
  destruct c; simpl in Hstep;
    unfold on_model_returning, on_model, cpmodel_solve in Hstep;
    destruct (heap_models h !! l) as [m|] eqn:Hm; simplify_option_eq;
    (split; [intros l' Hl'; try apply lookup_insert_ne; congruence|]);
    (split; [|try (simpl; lia)]); try (intros a x Ha; exact Ha).
  - intros a x Ha. rewrite lookup_insert_ne; [exact Ha|].
    intros <-. rewrite fresh_response_unused in Ha. discriminate.
  - rewrite map_size_insert_None by apply fresh_response_unused. simpl. lia.
Qed.

End Frames.

(** X13.  A sequence of calls on one builder changes no other builder
    and no result that exists when it starts, whatever it contains; the
    number of results grows by one for each solve of the sequence and by
    nothing else. *)
Theorem calls_frame :
  forall (SolveWithParameters : CpModelProto -> SatParameters -> sat_CpSolverResponse)
         (h : Heap) (l : positive) (calls : list cp_call) (h' : Heap)
         (handles : list Z),
    cp_run SolveWithParameters h l calls = Some (h', handles) ->
    (forall l', l' <> l -> heap_models h' !! l' = heap_models h !! l')
    /\ (forall a x, heap_responses h !! a = Some x -> heap_responses h' !! a = Some x)
    /\ size (heap_responses h') = (size (heap_responses h) + solve_count calls)%nat.
Proof.
  intros S h l calls. revert h.
  induction calls as [|c rest IH]; intros h h' handles Hrun; simpl in Hrun.
  - simplify_eq. repeat split; eauto; unfold solve_count; simpl; lia.
  - destruct (cp_step S h l c) as [[h1 r]|] eqn:Hstep; [|discriminate].
    simpl in Hrun.
    destruct (cp_run S h1 l rest) as [[h2 hs]|] eqn:Hrest; [|discriminate].
    simpl in Hrun. simplify_eq.
    destruct (cp_step_frame _ _ _ _ _ _ Hstep) as (Hm1 & Hr1 & Hs1).
    destruct (IH _ _ _ Hrest) as (Hm2 & Hr2 & Hs2).
    split; [intros l' Hl'; rewrite Hm2, Hm1 by exact Hl'; reflexivity|].
    split; [intros a x Ha; apply Hr2, Hr1, Ha|].
    rewrite Hs2, Hs1. unfold solve_count. rewrite filter_cons.
    destruct (is_solve c); [rewrite decide_True by reflexivity
                           | rewrite decide_False by discriminate]; simpl; lia.
Qed.

Lemma calls_frame_witness :
  exists h' handles,
    cp_run Demo.engine Demo.heap 1%positive Demo.cp_calls = Some (h', handles)
    /\ size (heap_responses h') = 1%nat.
Proof.
  destruct (cp_run Demo.engine Demo.heap 1%positive Demo.cp_calls)
    as [[h' handles]|] eqn:Hrun; [|vm_compute in Hrun; discriminate].
  exists h', handles. split; [reflexivity|].
  destruct (calls_frame Demo.engine Demo.heap 1%positive Demo.cp_calls h' handles Hrun)
    as (_ & _ & Hsize).
  rewrite Hsize. reflexivity.
Defined.



(** ** Compiled models are closed *)

Lemma table_in_sync_index (m : CpModelBuilder) (v : IntVar) :
  table_in_sync m -> v ∈ vars m ->
  (index v < length (proto_variables (builder m)))%nat.
Proof.
  unfold table_in_sync. intros -> Hv.
  apply list_elem_of_fmap in Hv as (i & -> & Hi).
  apply elem_of_seq in Hi. simpl. lia.
Qed.

Lemma vec_at_elem_of {A} (table : list A) (idx : Z) (x : A) :
  vec_at table idx = Some x -> x ∈ table.
Proof. unfold vec_at. apply list_elem_of_lookup_2. Qed.

(** The loop of [build_linear_expr] only adds terms on variables of the
    table. *)
Lemma build_linear_expr_from_vars model var_indices coeffs :
  forall remaining i expr e,
    build_linear_expr_from model var_indices coeffs i remaining expr = Some e ->
    Forall (fun t => t.1 ∈ vars model) (terms expr) ->
    Forall (fun t => t.1 ∈ vars model) (terms e).
Proof.
  induction remaining as [|k IH]; intros i expr e Hrun Hexpr;
    cbn [build_linear_expr_from] in Hrun.
  - simplify_eq. exact Hexpr.
  - destruct (var_indices !! i) as [idx|]; [|discriminate].
    destruct (coeffs !! i) as [c|]; [|discriminate].
    cbn [mbind option_bind] in Hrun.
    destruct (vec_at (vars model) idx) as [v|] eqn:Hv; [|discriminate].
    cbn [mbind option_bind] in Hrun.
    apply (IH _ _ _ Hrun). cbn [LinearExpr_add_assign LinearExpr_mul LinearExpr_of_var
      terms map fst snd].
    apply Forall_app. split; [exact Hexpr|].
    constructor; [|constructor]. simpl. eapply vec_at_elem_of, Hv.
Qed.

Lemma build_linear_expr_within (m : CpModelBuilder) var_indices coeffs num_vars e :
  table_in_sync m ->
  build_linear_expr m var_indices coeffs num_vars = Some e ->
  expr_within (length (proto_variables (builder m))) e.
Proof.
  intros Hsync Hrun. unfold expr_within.
  eapply Forall_impl.
  - eapply build_linear_expr_from_vars; [exact Hrun | constructor].
  - intros t Ht. apply table_in_sync_index; assumption.
Qed.

Lemma collect_vars_from_vars model var_indices :
  forall remaining i acc r,
    collect_vars_from model var_indices i remaining acc = Some r ->
    Forall (fun v => v ∈ vars model) acc ->
    Forall (fun v => v ∈ vars model) r.
Proof.
  induction remaining as [|k IH]; intros i acc r Hrun Hacc;
    cbn [collect_vars_from] in Hrun.
  - simplify_eq. exact Hacc.
  - destruct (var_indices !! i) as [idx|]; [|discriminate].
    cbn [mbind option_bind] in Hrun.
    destruct (vec_at (vars model) idx) as [v|] eqn:Hv; [|discriminate].
    cbn [mbind option_bind] in Hrun.
    apply (IH _ _ _ Hrun). apply Forall_app. split; [exact Hacc|].
    constructor; [|constructor]. eapply vec_at_elem_of, Hv.
Qed.

Lemma constraint_within_mono (n n' : nat) (c : ConstraintProto) :
  (n <= n')%nat -> constraint_within n c -> constraint_within n' c.
Proof.
  intros Hn. destruct c as [e rel rhs | vs]; simpl; unfold expr_within;
    intros Hc; (eapply Forall_impl; [exact Hc|]); intros; simpl in *; lia.
Qed.

Lemma model_closed_add_constraint (b : CpModelProto) (c : ConstraintProto) :
  model_closed b -> constraint_within (length (proto_variables b)) c ->
  model_closed (sat.AddConstraint b c).
Proof.
  intros [Hcs Hobj] Hc. split; [|exact Hobj].
  cbn [sat.AddConstraint proto_constraints proto_variables].
  apply Forall_app. split; [exact Hcs|]. constructor; [exact Hc|constructor].
Qed.

(** A creation call keeps the table in step with the compiled model and
    the model closed. *)
Lemma new_var_keeps_closed (m : CpModelBuilder) (d : Domain) (name : c_str) b' :
  table_in_sync m -> model_closed (builder m) ->
  with_optional_name (sat.NewIntVar (builder m) d).1 (sat.NewIntVar (builder m) d).2 name
  = Some b' ->
  table_in_sync {| builder := b'; vars := vars m ++ [(sat.NewIntVar (builder m) d).2] |}
  /\ model_closed b'.
Proof.
  intros Hsync [Hcs Hobj] Hname.
  destruct (with_optional_name_result (builder m) d name)
    as (b0 & Hname0 & Hvars & Hcs0 & Hobj0).
  rewrite Hname in Hname0. simplify_eq. split.
  - unfold table_in_sync in *. cbn [vars builder sat.NewIntVar snd].
    rewrite Hvars, length_app. cbn [length].
    rewrite Nat.add_1_r, seq_S, fmap_app, <- Hsync. reflexivity.
  - split.
    + rewrite Hcs0, Hvars. eapply Forall_impl; [exact Hcs|].
      intros c. apply constraint_within_mono. rewrite length_app. lia.
    + rewrite Hobj0, Hvars. destruct (proto_objective (builder m)) as [[dir e]|];
        [|exact I].
      unfold expr_within in *. eapply Forall_impl; [exact Hobj|].
      intros t. simpl. rewrite length_app. lia.
Qed.

Section Closed.

Variable SolveWithParameters : CpModelProto -> SatParameters -> sat_CpSolverResponse.

Lemma cp_step_closed h l c h' r m :
  cp_step SolveWithParameters h l c = Some (h', r) ->
  heap_models h !! l = Some m ->
  table_in_sync m -> model_closed (builder m) ->
  (exists m', heap_models h' !! l = Some m'
              /\ table_in_sync m' /\ model_closed (builder m'))
  /\ (forall a res, heap_responses h' !! a = Some res ->
        heap_responses h !! a = Some res \/ model_closed (model res)).
Proof.
  intros Hstep Hm Hsync Hclosed.
  assert (Hnew : forall d name r0,
            (let '(b, var) := sat.NewIntVar (builder m) d in
             b' ← with_optional_name b var name;
             Some ({| builder := b'; vars := vars m ++ [var] |},
                   static_cast_int32 (length (vars m)))) = Some r0 ->
            table_in_sync r0.1 /\ model_closed (builder r0.1)).
  { intros d name r0 Hcall.
    destruct (with_optional_name (sat.NewIntVar (builder m) d).1
                (sat.NewIntVar (builder m) d).2 name) as [b'|] eqn:Hname.
    - destruct (new_var_keeps_closed m d name b' Hsync Hclosed Hname) as [Hs Hc].
      cbn [sat.NewIntVar fst snd] in Hcall, Hname. rewrite Hname in Hcall.
      cbn [mbind option_bind] in Hcall. simplify_eq. split; assumption.
    - cbn [sat.NewIntVar fst snd] in Hcall, Hname. rewrite Hname in Hcall.
      discriminate. }
  assert (Hlin : forall vi cs n e,
            build_linear_expr m vi cs n = Some e ->
            expr_within (length (proto_variables (builder m))) e).
  { intros vi cs n e. apply build_linear_expr_within. exact Hsync. }
  destruct c as [lb ub name | name | vi cs n rhs | vi cs n rhs | vi cs n rhs
                | vi n | vi cs n | vi cs n | t];
    simpl in Hstep;
    unfold on_model_returning, on_model, cpmodel_solve in Hstep;
    rewrite Hm in Hstep; cbn [mbind option_bind] in Hstep.
  - destruct (cpmodel_new_int_var m lb ub name) as [r0|] eqn:Hcall; [|discriminate].
    cbn [mbind option_bind fst snd] in Hstep. simplify_eq.
    cbn [heap_models heap_responses]. split; [|intros a res Ha; left; exact Ha].
    eexists. split; [apply lookup_insert_eq|]. apply (Hnew _ _ _ Hcall).
  - destruct (cpmodel_new_bool_var m name) as [r0|] eqn:Hcall; [|discriminate].
    cbn [mbind option_bind fst snd] in Hstep. simplify_eq.
    cbn [heap_models heap_responses]. split; [|intros a res Ha; left; exact Ha].
    eexists. split; [apply lookup_insert_eq|]. apply (Hnew _ _ _ Hcall).
  - unfold cpmodel_add_linear_le in Hstep.
    destruct (build_linear_expr m vi cs n) as [e|] eqn:Hbuild; [|discriminate].
    cbn [mbind option_bind fst snd] in Hstep. simplify_eq.
    cbn [heap_models heap_responses]. split; [|intros a res Ha; left; exact Ha].
    eexists. split; [apply lookup_insert_eq|]. split; [exact Hsync|].
    apply model_closed_add_constraint; [exact Hclosed | exact (Hlin _ _ _ _ Hbuild)].
  - unfold cpmodel_add_linear_ge in Hstep.
    destruct (build_linear_expr m vi cs n) as [e|] eqn:Hbuild; [|discriminate].
    cbn [mbind option_bind fst snd] in Hstep. simplify_eq.
    cbn [heap_models heap_responses]. split; [|intros a res Ha; left; exact Ha].
    eexists. split; [apply lookup_insert_eq|]. split; [exact Hsync|].
    apply model_closed_add_constraint; [exact Hclosed | exact (Hlin _ _ _ _ Hbuild)].
  - unfold cpmodel_add_linear_eq in Hstep.
    destruct (build_linear_expr m vi cs n) as [e|] eqn:Hbuild; [|discriminate].
    cbn [mbind option_bind fst snd] in Hstep. simplify_eq.
    cbn [heap_models heap_responses]. split; [|intros a res Ha; left; exact Ha].
    eexists. split; [apply lookup_insert_eq|]. split; [exact Hsync|].
    apply model_closed_add_constraint; [exact Hclosed | exact (Hlin _ _ _ _ Hbuild)].
  - unfold cpmodel_add_all_different in Hstep.
    destruct (collect_vars_from m vi 0 n []) as [vs|] eqn:Hvs; [|discriminate].
    cbn [mbind option_bind fst snd] in Hstep. simplify_eq.
    cbn [heap_models heap_responses]. split; [|intros a res Ha; left; exact Ha].
    eexists. split; [apply lookup_insert_eq|]. split; [exact Hsync|].
    apply model_closed_add_constraint; [exact Hclosed|].
    simpl. eapply Forall_impl.
    + eapply collect_vars_from_vars; [exact Hvs | constructor].
    + intros v Hv. apply table_in_sync_index; assumption.
  - unfold cpmodel_minimize in Hstep.
    destruct (build_linear_expr m vi cs n) as [e|] eqn:Hbuild; [|discriminate].
    cbn [mbind option_bind fst snd] in Hstep. simplify_eq.
    cbn [heap_models heap_responses]. split; [|intros a res Ha; left; exact Ha].
    eexists. split; [apply lookup_insert_eq|]. split; [exact Hsync|].
    destruct Hclosed as [Hcs _]. split; [exact Hcs | exact (Hlin _ _ _ _ Hbuild)].
  - unfold cpmodel_maximize in Hstep.
    destruct (build_linear_expr m vi cs n) as [e|] eqn:Hbuild; [|discriminate].
    cbn [mbind option_bind fst snd] in Hstep. simplify_eq.
    cbn [heap_models heap_responses]. split; [|intros a res Ha; left; exact Ha].
    eexists. split; [apply lookup_insert_eq|]. split; [exact Hsync|].
    destruct Hclosed as [Hcs _]. split; [exact Hcs | exact (Hlin _ _ _ _ Hbuild)].
  - simplify_eq. cbn [heap_models heap_responses fst snd]. split; [eauto|].
    intros a res Ha. rewrite lookup_insert in Ha.
    destruct (decide (fresh (dom (heap_responses h)) = a)) as [Heq|Hne].
    + simplify_eq. right. exact Hclosed.
    + left. exact Ha.
Qed.

Lemma cp_run_closed calls :
  forall h l h' handles m,
    cp_run SolveWithParameters h l calls = Some (h', handles) ->
    heap_models h !! l = Some m ->
    table_in_sync m -> model_closed (builder m) ->
    (exists m', heap_models h' !! l = Some m'
                /\ table_in_sync m' /\ model_closed (builder m'))
    /\ (forall a res, heap_responses h' !! a = Some res ->
          heap_responses h !! a = Some res \/ model_closed (model res)).
Proof.
  induction calls as [|c rest IH]; intros h l h' handles m Hrun Hm Hsync Hclosed;
    simpl in Hrun.
  - simplify_eq. split; [eauto|]. intros a res Ha. left. exact Ha.
  - destruct (cp_step SolveWithParameters h l c) as [[h1 r]|] eqn:Hstep;
      [|discriminate].
    simpl in Hrun.
    destruct (cp_run SolveWithParameters h1 l rest) as [[h2 hs]|] eqn:Hrest;
      [|discriminate].
    simpl in Hrun. simplify_eq.
    destruct (cp_step_closed _ _ _ _ _ _ Hstep Hm Hsync Hclosed)
      as [(m1 & Hm1 & Hsync1 & Hclosed1) Hres1].
    destruct (IH _ _ _ _ _ Hrest Hm1 Hsync1 Hclosed1) as [Hfinal Hres2].
    split; [exact Hfinal|].
    intros a res Ha. destruct (Hres2 a res Ha) as [Hold | Hnew]; [|right; exact Hnew].
    apply Hres1. exact Hold.
Qed.

End Closed.

(** X15.  Whatever sequence of calls is made on a builder that starts
    empty, the handle table stays in step with the compiled model (the
    entry at position [i] is the model's variable [i]), and the
    constraints and the objective of the builder mention only variables
    the model has; the same holds of the compiled model kept by every
    result a solve of the sequence returns. *)
Theorem compiled_models_closed :
  forall (SolveWithParameters : CpModelProto -> SatParameters -> sat_CpSolverResponse)
         (h : Heap) (l : positive) (calls : list cp_call) (h' : Heap)
         (handles : list Z),
    heap_models h !! l = Some cpmodel_new ->
    cp_run SolveWithParameters h l calls = Some (h', handles) ->
    (exists m', heap_models h' !! l = Some m'
                /\ table_in_sync m' /\ model_closed (builder m'))
    /\ (forall a res, heap_responses h' !! a = Some res ->
          heap_responses h !! a = Some res \/ model_closed (model res)).
Proof.
  intros S h l calls h' handles Hm Hrun.
  apply (cp_run_closed S calls h l h' handles cpmodel_new Hrun Hm).
  - reflexivity.
  - split; [constructor | exact I].
Qed.

Lemma compiled_models_closed_witness :
  exists h' handles m',
    cp_run Demo.engine Demo.heap 1%positive Demo.cp_calls = Some (h', handles)
    /\ heap_models h' !! 1%positive = Some m'
    /\ table_in_sync m' /\ model_closed (builder m').
Proof.
  destruct (cp_run Demo.engine Demo.heap 1%positive Demo.cp_calls)
    as [[h' handles]|] eqn:Hrun; [|vm_compute in Hrun; discriminate].
  destruct (compiled_models_closed Demo.engine Demo.heap 1%positive Demo.cp_calls
              h' handles eq_refl Hrun) as [(m' & Hm' & Hsync & Hclosed) _].
  exists h', handles, m'. repeat split; try assumption; apply Hclosed.
Defined.
